(** * envx-ui: the structure-preserving env file store

    A shallow embedding of [src/server/env.service.js]: the line parser
    [parseEnvFile], the writer [writeEnvFile] and the three mutators
    [addEntry], [updateEntry], [deleteEntry], together with the JavaScript
    string and array primitives they call.

    A JavaScript string is a sequence of UTF-16 code units; it is modelled
    as a list of code units (numbers), so that [trim] can strip exactly the
    code units ECMAScript strips.  Arrays are lists; the array methods
    [find], [findIndex] and [splice] are stdpp's [list_find] and [delete].

    Around the store, the file also embeds [isValidKey], [getEntries] and
    [scanEnvFiles] of the same module, the three key routes of
    [index.js] that read, change and write an env file, the saved and
    recent folder lists of the folder service, and [parseArgs] of the
    command line entry point. *)

From Stdlib Require Import ZArith NArith String Ascii Bool Lia.
From stdpp Require Import base tactics option list.

Set Default Proof Using "Type".

(** ** JavaScript strings *)

Module JS.

Definition char := N.
Definition jsstring := list char.

(** Code unit of an ASCII character, and the string of an ASCII literal. *)
Definition ch (a : ascii) : char := N_of_ascii a.
Definition lit (s : string) : jsstring := map ch (list_ascii_of_string s).

Definition LF : char := 10%N.
Definition CR : char := 13%N.
Definition SPACE : char := 32%N.
Definition DQUOTE : char := 34%N.
Definition HASH : char := 35%N.
Definition SQUOTE : char := 39%N.
Definition EQUALS : char := 61%N.
Definition BACKSLASH : char := 92%N.

Definition len (s : jsstring) : Z := Z.of_nat (length s).

Fixpoint eqb_str (s t : jsstring) : bool :=
  match s, t with
  | [], [] => true
  | c :: s', d :: t' => (c =? d)%N && eqb_str s' t'
  | _, _ => false
  end.

(** The code units removed by [String.prototype.trim]: ECMAScript's
    WhiteSpace (TAB, VT, FF, SP, NBSP, ZWNBSP and the Unicode category Zs)
    and LineTerminator (LF, CR, LS, PS). *)
Definition isTrimmable (c : char) : bool :=
  ((9 <=? c) && (c <=? 13) ||
   (c =? 32) || (c =? 160) || (c =? 5760) ||
   (8192 <=? c) && (c <=? 8202) ||
   (c =? 8232) || (c =? 8233) || (c =? 8239) || (c =? 8287) ||
   (c =? 12288) || (c =? 65279))%N.

Fixpoint trimStart (s : jsstring) : jsstring :=
  match s with
  | [] => []
  | c :: s' => if isTrimmable c then trimStart s' else s
  end.

Definition trimEnd (s : jsstring) : jsstring := rev (trimStart (rev s)).

Definition trim (s : jsstring) : jsstring := trimEnd (trimStart s).

(** [s.startsWith(p)] *)
Fixpoint startsWith (s p : jsstring) {struct p} : bool :=
  match p, s with
  | [], _ => true
  | d :: p', c :: s' => (c =? d)%N && startsWith s' p'
  | _ :: _, [] => false
  end.

(** [s.endsWith(p)]: the comparison starts at [len s - len p]; the answer
    is [false] when that position is negative. *)
Definition endsWith (s p : jsstring) : bool :=
  let start := (len s - len p)%Z in
  if (start <? 0)%Z then false
  else eqb_str (drop (Z.to_nat start) s) p.

(** [s.includes(c)] for a pattern of one code unit. *)
Definition includes (s : jsstring) (c : char) : bool :=
  existsb (fun x => (x =? c)%N) s.

(** [s.indexOf(c)] for a pattern of one code unit: the first position of
    [c], or [-1]. *)
Fixpoint indexOf_from (s : jsstring) (c : char) (k : Z) : Z :=
  match s with
  | [] => (-1)%Z
  | x :: s' => if (x =? c)%N then k else indexOf_from s' c (k + 1)%Z
  end.

Definition indexOf (s : jsstring) (c : char) : Z := indexOf_from s c 0%Z.

(** [s.substring(start, end)]: both arguments are clamped to [0, len s]
    and swapped when out of order. *)
Definition clamp (x n : Z) : Z := Z.min (Z.max x 0) n.

Definition substring (s : jsstring) (start end_ : Z) : jsstring :=
  let a := clamp start (len s) in
  let b := clamp end_ (len s) in
  let from := Z.min a b in
  let to := Z.max a b in
  take (Z.to_nat (to - from)) (drop (Z.to_nat from) s).

(** [s.substring(start)] *)
Definition substringFrom (s : jsstring) (start : Z) : jsstring :=
  substring s start (len s).

(** [s.slice(start, end)]: a negative argument counts from the end; the
    result is empty when the bounds cross. *)
Definition relIndex (x n : Z) : Z :=
  if (x <? 0)%Z then Z.max (n + x) 0 else Z.min x n.

Definition slice (s : jsstring) (start end_ : Z) : jsstring :=
  let from := relIndex start (len s) in
  let to := relIndex end_ (len s) in
  take (Z.to_nat (Z.max (to - from) 0)) (drop (Z.to_nat from) s).

(** [s.replace(/c/g, rep)] for a pattern of one code unit and a
    replacement text without [$]: every occurrence is replaced. *)
Fixpoint replaceAll (s : jsstring) (c : char) (rep : jsstring) : jsstring :=
  match s with
  | [] => []
  | x :: s' =>
      (if (x =? c)%N then rep else [x]) ++ replaceAll s' c rep
  end.

(** [s.split(sep)] for a separator of one code unit.  The result is never
    empty: the empty string splits into one empty segment, and a trailing
    separator gives a trailing empty segment. *)
Fixpoint split (s : jsstring) (sep : char) : list jsstring :=
  match s with
  | [] => [[]]
  | c :: s' =>
      if (c =? sep)%N then [] :: split s' sep
      else match split s' sep with
           | seg :: segs => (c :: seg) :: segs
           | [] => [[c]]
           end
  end.

(** [a.join(sep)]: the empty array gives the empty string; otherwise the
    result starts as the first element and each further element is added
    after one separator. *)
Definition join (a : list jsstring) (sep : jsstring) : jsstring :=
  match a with
  | [] => []
  | x :: xs => fold_left (fun r e => r ++ sep ++ e) xs x
  end.

End JS.

Import JS.

(** ** The document model of [env.service.js] *)

(** A line object: [{ type: 'empty' | 'comment' | 'unknown', raw }] or
    [{ type: 'entry', key, value, encrypted, raw }]. *)
Inductive Line : Type :=
| line_empty (raw : jsstring)
| line_comment (raw : jsstring)
| line_entry (key value : jsstring) (encrypted : bool) (raw : jsstring)
| line_unknown (raw : jsstring).

(** The parsed structure [{ filepath, lines }]. *)
Record EnvDocument : Type := mkDoc {
  filepath : jsstring;
  lines : list Line
}.

Definition raw_of (l : Line) : jsstring :=
  match l with
  | line_empty r | line_comment r | line_unknown r => r
  | line_entry _ _ _ r => r
  end.

Definition is_entry (l : Line) : bool :=
  match l with line_entry _ _ _ _ => true | _ => false end.

(** What a JavaScript call completes with: a value, or a thrown error.
    [Error msg] is [new Error(msg)]; [SystemError] is what the [fs] module
    throws. *)
Inductive exn : Type :=
| Error (message : jsstring)
| SystemError (code : jsstring).

Inductive completion (A : Type) : Type :=
| Normal (a : A)
| Throw (e : exn).
Arguments Normal {A} a.
Arguments Throw {A} e.

(** The files the [fs] module sees: a path has a content or does not
    exist. *)
Definition FileSystem := jsstring -> option jsstring.

Definition readFileSync (fs : FileSystem) (path : jsstring)
  : completion jsstring :=
  match fs path with
  | Some content => Normal content
  | None => Throw (SystemError (lit "ENOENT"))
  end.

Definition writeFileSync (fs : FileSystem) (path content : jsstring)
  : FileSystem :=
  fun p => if eqb_str p path then Some content else fs p.

(** ** [parseEnvFile] *)

Definition ENCRYPTED_PREFIX : jsstring := lit "encrypted:".

(** "Handle quoted values": from the text after the [=] to [parsedValue]. *)
Definition parsedValueOf (value : jsstring) : jsstring :=
  let trimmedValue := trim value in
  if (startsWith trimmedValue [DQUOTE] && endsWith trimmedValue [DQUOTE])
     || (startsWith trimmedValue [SQUOTE] && endsWith trimmedValue [SQUOTE])
  then slice trimmedValue 1 (-1)
  else trimmedValue.

(** The body of the [for] loop: the line object pushed for one raw line. *)
Definition parseLine (raw : jsstring) : Line :=
  let trimmed := trim raw in
  if eqb_str trimmed [] then line_empty raw
  else if startsWith trimmed [HASH] then line_comment raw
  else
    let eqIndex := indexOf raw EQUALS in
    if negb (eqIndex =? -1)%Z then
      let key := trim (substring raw 0 eqIndex) in
      let value := substringFrom raw (eqIndex + 1) in
      let parsedValue := parsedValueOf value in
      let encrypted := startsWith parsedValue ENCRYPTED_PREFIX in
      line_entry key parsedValue encrypted raw
    else line_unknown raw.

(** The loop over [content.split('\n')], pushing one line object per
    segment onto [result.lines]. *)
Definition parseContent (path content : jsstring) : EnvDocument :=
  let segments := split content LF in
  mkDoc path (fold_left (fun acc raw => acc ++ [parseLine raw]) segments []).

(** [parseEnvFile(filepath)]: the only statement of the [try] block that
    can throw is the read; the [catch] logs and rethrows. *)
Definition parseEnvFile (fs : FileSystem) (path : jsstring)
  : completion EnvDocument :=
  match readFileSync fs path with
  | Normal content => Normal (parseContent path content)
  | Throw e => Throw e
  end.

(** ** [getEntries] *)

Definition getEntries (parsed : EnvDocument)
  : list (jsstring * jsstring * bool) :=
  omap (fun l => match l with
                 | line_entry k v e _ => Some (k, v, e)
                 | _ => None
                 end) (lines parsed).

(** ** [writeEnvFile] *)

Definition needsQuotes (value : jsstring) : bool :=
  includes value SPACE || includes value HASH || includes value LF
  || includes value DQUOTE || includes value SQUOTE.

(** The callback of [parsed.lines.map]: the text written for one line. *)
Definition writeLine (line : Line) : jsstring :=
  match line with
  | line_entry key value _ _ =>
      if needsQuotes value then
        let escaped := replaceAll value DQUOTE [BACKSLASH; DQUOTE] in
        key ++ [EQUALS; DQUOTE] ++ escaped ++ [DQUOTE]
      else key ++ [EQUALS] ++ value
  | _ => raw_of line
  end.

(** The text handed to [fs.writeFileSync]. *)
Definition serialize (parsed : EnvDocument) : jsstring :=
  join (map writeLine (lines parsed)) [LF].

Definition writeEnvFile (fs : FileSystem) (path : jsstring)
  (parsed : EnvDocument) : FileSystem :=
  writeFileSync fs path (serialize parsed).

(** ** The mutators

    Each mutator works on the document object it is given and returns that
    same object; a call is modelled by its completion together with the
    state of the document when the call ends. *)

(** The callback [l => l.type === 'entry' && l.key === key]. *)
Definition isEntryFor (key : jsstring) (l : Line) : bool :=
  match l with
  | line_entry k _ _ _ => eqb_str k key
  | _ => false
  end.

(** [a.find(p)] and [a.findIndex(p)]: the first element satisfying [p]
    (with its position, through which the caller mutates it), and its
    position or [-1]. *)
Definition find (p : Line -> bool) (a : list Line) : option (nat * Line) :=
  list_find (fun l => p l = true) a.

Definition findIndex (p : Line -> bool) (a : list Line) : Z :=
  match list_find (fun l => p l = true) a with
  | Some (i, _) => Z.of_nat i
  | None => (-1)%Z
  end.

(** [a.splice(start, 1)] *)
Definition splice1 (a : list Line) (start : Z) : list Line :=
  delete (Z.to_nat (relIndex start (Z.of_nat (length a)))) a.

Definition alreadyExists (key : jsstring) : jsstring :=
  lit "Key " ++ [DQUOTE] ++ key ++ [DQUOTE] ++ lit " already exists".

Definition notFound (key : jsstring) : jsstring :=
  lit "Key " ++ [DQUOTE] ++ key ++ [DQUOTE] ++ lit " not found".

Definition addEntry (parsed : EnvDocument) (key value : jsstring)
  : completion unit * EnvDocument :=
  match find (isEntryFor key) (lines parsed) with
  | Some _ => (Throw (Error (alreadyExists key)), parsed)
  | None =>
      let encrypted := startsWith value ENCRYPTED_PREFIX in
      (Normal tt,
       mkDoc (filepath parsed)
         (lines parsed ++
          [line_entry key value encrypted (key ++ [EQUALS] ++ value)]))
  end.

(** The three assignments of [updateEntry] on the found entry object; its
    [type] and [key] stay.  [find] only returns entry objects, so the
    last case is not reached. *)
Definition assignEntry (entry : Line) (key newValue : jsstring) : Line :=
  match entry with
  | line_entry k _ _ _ =>
      line_entry k newValue (startsWith newValue ENCRYPTED_PREFIX)
        (key ++ [EQUALS] ++ newValue)
  | other => other
  end.

Definition updateEntry (parsed : EnvDocument) (key newValue : jsstring)
  : completion unit * EnvDocument :=
  match find (isEntryFor key) (lines parsed) with
  | None => (Throw (Error (notFound key)), parsed)
  | Some (i, entry) =>
      (Normal tt,
       mkDoc (filepath parsed)
         (<[i := assignEntry entry key newValue]> (lines parsed)))
  end.

Definition deleteEntry (parsed : EnvDocument) (key : jsstring)
  : completion unit * EnvDocument :=
  let index := findIndex (isEntryFor key) (lines parsed) in
  if (index =? -1)%Z then (Throw (Error (notFound key)), parsed)
  else (Normal tt, mkDoc (filepath parsed) (splice1 (lines parsed) index)).

(** ** Vocabulary of the specification

    The definitions below do not come from the code: they say, in the
    words of the specification, what the theorems compare the code with. *)

(** An [Entry] line with this key exists in the document. *)
Definition hasEntry (key : jsstring) (doc : EnvDocument) : Prop :=
  exists value encrypted raw,
    In (line_entry key value encrypted raw) (lines doc).

(** A call failed: it completed by throwing. *)
Definition failed (o : completion unit * EnvDocument) : Prop :=
  exists e, fst o = Throw e.

(** The two failures of the mutators, which the code throws as plain
    [Error] objects with these messages. *)
Definition DuplicateKeyError (key : jsstring) : exn :=
  Error (alreadyExists key).
Definition KeyNotFoundError (key : jsstring) : exn :=
  Error (notFound key).

(** The four line variants of the specification. *)
Inductive Variant : Type := Blank | Comment | Entry | Unrecognized.

Definition variant (l : Line) : Variant :=
  match l with
  | line_empty _ => Blank
  | line_comment _ => Comment
  | line_entry _ _ _ _ => Entry
  | line_unknown _ => Unrecognized
  end.

(** The classification rule, in the order the specification gives it. *)
Inductive classified (raw : jsstring) : Variant -> Prop :=
| classified_blank :
    trim raw = [] -> classified raw Blank
| classified_comment rest :
    trim raw = HASH :: rest -> classified raw Comment
| classified_entry :
    trim raw <> [] -> (forall rest, trim raw <> HASH :: rest) ->
    In EQUALS raw -> classified raw Entry
| classified_unrecognized :
    trim raw <> [] -> (forall rest, trim raw <> HASH :: rest) ->
    ~ In EQUALS raw -> classified raw Unrecognized.

(** "Every embedded double quote is prefixed by a backslash." *)
Inductive escaped : jsstring -> jsstring -> Prop :=
| escaped_nil : escaped [] []
| escaped_quote v out :
    escaped v out -> escaped (DQUOTE :: v) (BACKSLASH :: DQUOTE :: out)
| escaped_other c v out :
    c <> DQUOTE -> escaped v out -> escaped (c :: v) (c :: out).

(** "The value contains a space, [#], a line feed, or either quote
    character." *)
Definition mustBeQuoted (value : jsstring) : Prop :=
  In SPACE value \/ In HASH value \/ In LF value
  \/ In DQUOTE value \/ In SQUOTE value.

(** The text the serializer emits for one line. *)
Inductive emitted : Line -> jsstring -> Prop :=
| emitted_blank raw : emitted (line_empty raw) raw
| emitted_comment raw : emitted (line_comment raw) raw
| emitted_unrecognized raw : emitted (line_unknown raw) raw
| emitted_quoted key value enc raw out :
    mustBeQuoted value -> escaped value out ->
    emitted (line_entry key value enc raw)
      (key ++ [EQUALS] ++ [DQUOTE] ++ out ++ [DQUOTE])
| emitted_plain key value enc raw :
    ~ mustBeQuoted value ->
    emitted (line_entry key value enc raw) (key ++ [EQUALS] ++ value).

(** The emitted texts with exactly one line feed between consecutive
    ones, and nothing after the last. *)
Fixpoint joinLines (outs : list jsstring) : jsstring :=
  match outs with
  | [] => []
  | [out] => out
  | out :: rest => out ++ LF :: joinLines rest
  end.

(** The marker of an [Entry] agrees with the prefix of its value. *)
Definition markerCorrect (l : Line) : Prop :=
  match l with
  | line_entry _ value encrypted _ =>
      encrypted = true <-> exists rest, value = ENCRYPTED_PREFIX ++ rest
  | _ => True
  end.

(** The documents the store works on: parsed from a text, then changed by
    successful mutator calls. *)
Inductive produced : EnvDocument -> Prop :=
| produced_parse path content :
    produced (parseContent path content)
| produced_add doc key value doc' :
    produced doc -> addEntry doc key value = (Normal tt, doc') ->
    produced doc'
| produced_update doc key value doc' :
    produced doc -> updateEntry doc key value = (Normal tt, doc') ->
    produced doc'
| produced_delete doc key doc' :
    produced doc -> deleteEntry doc key = (Normal tt, doc') ->
    produced doc'.

(** Two lines that are identical except, for [Entry] lines, for their
    raw text. *)
Inductive sameButEntryRaw : Line -> Line -> Prop :=
| same_line l : sameButEntryRaw l l
| same_entry key value enc raw1 raw2 :
    sameButEntryRaw (line_entry key value enc raw1)
                    (line_entry key value enc raw2).

(** The value the specification prescribes for the text after the [=]:
    a matching pair of quotes is taken off only when the trimmed text has
    at least two code units. *)
Definition specValue (right : jsstring) : jsstring :=
  let t := trim right in
  if ((startsWith t [DQUOTE] && endsWith t [DQUOTE])
      || (startsWith t [SQUOTE] && endsWith t [SQUOTE]))
     && (2 <=? len t)%Z
  then removelast (tail t)
  else t.

(** The position of the first [=] that is not escaped, a backslash
    escaping the code unit after it; [-1] when there is none. *)
Fixpoint firstUnescaped_from (s : jsstring) (c : char) (k : Z) : Z :=
  match s with
  | [] => (-1)%Z
  | x :: s' =>
      if (x =? BACKSLASH)%N then
        match s' with
        | [] => (-1)%Z
        | _ :: s'' => firstUnescaped_from s'' c (k + 2)%Z
        end
      else if (x =? c)%N then k
      else firstUnescaped_from s' c (k + 1)%Z
  end.

Definition firstUnescaped (s : jsstring) (c : char) : Z :=
  firstUnescaped_from s c 0%Z.

(** The texts the round-trip property of the specification speaks of: no
    value is single-quoted and no value requires re-quoting. *)
Definition singleQuoted (raw : jsstring) : bool :=
  let t := trim (substringFrom raw (indexOf raw EQUALS + 1)) in
  startsWith t [SQUOTE] && endsWith t [SQUOTE].

Definition eligibleLine (l : Line) : bool :=
  match l with
  | line_entry _ value _ raw => negb (singleQuoted raw) && negb (needsQuotes value)
  | _ => true
  end.

Definition eligible (text : jsstring) : bool :=
  forallb eligibleLine (lines (parseContent [] text)).

(** The texts that do round-trip: in every entry line, neither side of
    the first [=] has anything [trim] would remove, and the right side
    has no space, [#] or quote character. *)
Definition canonicalEntry (raw : jsstring) : bool :=
  let i := indexOf raw EQUALS in
  let left := substring raw 0 i in
  let right := substringFrom raw (i + 1) in
  eqb_str (trim left) left && eqb_str (trim right) right
  && negb (needsQuotes right).

Definition canonicalLine (raw : jsstring) : bool :=
  negb (is_entry (parseLine raw)) || canonicalEntry raw.

Definition canonical (text : jsstring) : bool :=
  forallb canonicalLine (split text LF).

(** The example text of the specification,
    [# comment\nA=1\n\nB="has space"\n], and its document. *)
Definition sampleText : jsstring :=
  lit "# comment" ++ [LF] ++ lit "A=1" ++ [LF; LF]
  ++ lit "B=" ++ [DQUOTE] ++ lit "has space" ++ [DQUOTE; LF].

Definition sampleDoc : EnvDocument := parseContent (lit ".env") sampleText.

(** A file system holding the example text at [.env] and nothing else. *)
Definition sampleFs : FileSystem :=
  fun p => if eqb_str p (lit ".env") then Some sampleText else None.

(** ** [isValidKey]

    [/^[A-Za-z_][A-Za-z0-9_]*$/.test(key)]; without the [m] flag the [$]
    matches at the end of the string only. *)

Definition isKeyStart (c : char) : bool :=
  ((65 <=? c) && (c <=? 90) || (97 <=? c) && (c <=? 122) || (c =? 95))%N.

Definition isKeyChar (c : char) : bool :=
  isKeyStart c || ((48 <=? c) && (c <=? 57))%N.

Definition isValidKey (key : jsstring) : bool :=
  match key with
  | [] => false
  | c :: rest => isKeyStart c && forallb isKeyChar rest
  end.

(** The keys of the entries of a document, in document order. *)
Definition entryKeys (doc : EnvDocument) : list jsstring :=
  (fun e => fst (fst e)) <$> getEntries doc.

(** One successful mutator call takes the document from [doc] to
    [doc']. *)
Inductive mutated (doc doc' : EnvDocument) : Prop :=
| mutated_add key value :
    addEntry doc key value = (Normal tt, doc') -> mutated doc doc'
| mutated_update key value :
    updateEntry doc key value = (Normal tt, doc') -> mutated doc doc'
| mutated_delete key :
    deleteEntry doc key = (Normal tt, doc') -> mutated doc doc'.

(** A key that a written line gives back when it is read again: [trim]
    leaves it as it is, it has no [=] and does not start with [#]. *)
Definition storableKey (key : jsstring) : bool :=
  eqb_str (trim key) key && negb (includes key EQUALS)
  && negb (startsWith key [HASH]).

(** The value read back from the line written for an entry with value
    [value]. *)
Definition reloadedValue (value : jsstring) : jsstring :=
  if needsQuotes value then replaceAll value DQUOTE [BACKSLASH; DQUOTE]
  else trim value.

(** A value that comes back as it is from the line written for it: it
    has no double quote and no line feed, and it is either written in
    quotes or has nothing at its ends that [trim] removes. *)
Definition storableValue (value : jsstring) : bool :=
  negb (includes value DQUOTE) && negb (includes value LF)
  && (needsQuotes value || eqb_str (trim value) value).

(** A line that saving and reading again gives back: an entry with a
    storable key without line feed and a storable value, or another line
    that is what the parser makes of its own raw text. *)
Definition faithfulLine (l : Line) : Prop :=
  match l with
  | line_entry key value _ _ =>
      storableKey key = true /\ includes key LF = false
      /\ storableValue value = true
  | other =>
      parseLine (raw_of other) = other /\ includes (raw_of other) LF = false
  end.

(** The line object a reload makes of a faithful line: an entry gets the
    marker of its value and the written text as raw text. *)
Definition refreshed (l : Line) : Line :=
  match l with
  | line_entry key value _ _ =>
      line_entry key value (startsWith value ENCRYPTED_PREFIX) (writeLine l)
  | other => other
  end.

(** A line as the parser makes them and the key routes keep them: an
    entry with a storable key, and no line feed in key or value, or
    another line that is what the parser makes of its raw text. *)
Definition soundLine (l : Line) : Prop :=
  match l with
  | line_entry key value _ _ =>
      storableKey key = true /\ ~ In LF key /\ ~ In LF value
  | other =>
      parseLine (raw_of other) = other /\ ~ In LF (raw_of other)
  end.

(** The line object that saving and reading again makes of a sound line. *)
Definition reloadedLine (l : Line) : Line :=
  match l with
  | line_entry key value _ _ =>
      line_entry key (reloadedValue value)
        (startsWith (reloadedValue value) ENCRYPTED_PREFIX) (writeLine l)
  | other => other
  end.

(** ** The key routes of [index.js]

    The handlers of [POST /api/files/:filename/keys],
    [PUT /api/files/:filename/keys/:key] and
    [DELETE /api/files/:filename/keys/:key].  Each reads the file, calls
    one mutator and writes the file; anything thrown on the way is caught
    and answered with status 400 and the error text.  [path] stands for
    [path.join(cwd, filename)].  As in [writeEnvFile] above, the write
    itself is taken to succeed. *)

(** A field of the JSON body: a string, or something else of which only
    its truthiness matters. *)
Inductive BodyValue : Type :=
| body_string (s : jsstring)
| body_other (truthy : bool).

(** The [error] text of a failed response: a text of the code, the
    message of a caught error, or the message of the [TypeError] thrown
    when [startsWith] is called on something that is not a string. *)
Inductive ErrorText : Type :=
| error_text (message : jsstring)
| error_system (code : jsstring)
| error_type.

Definition messageOf (e : exn) : ErrorText :=
  match e with
  | Error message => error_text message
  | SystemError code => error_system code
  end.

(** [res.json({ success: true, key, value })] (without [value] for the
    delete route) or [res.status(status).json({ error })]. *)
Inductive Response : Type :=
| success (key : jsstring) (value : option jsstring)
| failure (status : Z) (error : ErrorText).

Definition KEY_REQUIRED : jsstring := lit "Key is required".
Definition INVALID_KEY_FORMAT : jsstring :=
  lit "Invalid key format. Use alphanumeric and underscores, starting with letter or underscore.".
Definition VALUE_REQUIRED : jsstring := lit "Value is required".

Definition postKey (fs : FileSystem) (path : jsstring)
  (key value : BodyValue) : Response * FileSystem :=
  match key with
  | body_string (c :: rest) =>
      let key := c :: rest in
      if negb (isValidKey key) then
        (failure 400 (error_text INVALID_KEY_FORMAT), fs)
      else
        match parseEnvFile fs path with
        | Throw e => (failure 400 (messageOf e), fs)
        | Normal parsed =>
            match value with
            | body_other true =>
                (* [addEntry] with a value that is not a string: the
                   duplicate check comes first, then [value.startsWith]
                   throws *)
                match find (isEntryFor key) (lines parsed) with
                | Some _ =>
                    (failure 400 (error_text (alreadyExists key)), fs)
                | None => (failure 400 error_type, fs)
                end
            | _ =>
                let value :=
                  match value with
                  | body_string s => s
                  | body_other _ => []
                  end in
                match addEntry parsed key value with
                | (Throw e, _) => (failure 400 (messageOf e), fs)
                | (Normal _, parsed') =>
                    (success key (Some value), writeEnvFile fs path parsed')
                end
            end
        end
  | _ => (failure 400 (error_text KEY_REQUIRED), fs)
  end.

Definition putKey (fs : FileSystem) (path key : jsstring)
  (value : BodyValue) : Response * FileSystem :=
  match value with
  | body_string value =>
      match parseEnvFile fs path with
      | Throw e => (failure 400 (messageOf e), fs)
      | Normal parsed =>
          match updateEntry parsed key value with
          | (Throw e, _) => (failure 400 (messageOf e), fs)
          | (Normal _, parsed') =>
              (success key (Some value), writeEnvFile fs path parsed')
          end
      end
  | body_other _ => (failure 400 (error_text VALUE_REQUIRED), fs)
  end.

Definition deleteKey (fs : FileSystem) (path key : jsstring)
  : Response * FileSystem :=
  match parseEnvFile fs path with
  | Throw e => (failure 400 (messageOf e), fs)
  | Normal parsed =>
      match deleteEntry parsed key with
      | (Throw e, _) => (failure 400 (messageOf e), fs)
      | (Normal _, parsed') =>
          (success key None, writeEnvFile fs path parsed')
      end
  end.

(** One request to a key route takes the files from [fs] to [fs'] and is
    answered with [r]. *)
Inductive keyRequest (fs : FileSystem) (path : jsstring)
  : Response -> FileSystem -> Prop :=
| request_post key value :
    keyRequest fs path (fst (postKey fs path key value))
      (snd (postKey fs path key value))
| request_put key value :
    keyRequest fs path (fst (putKey fs path key value))
      (snd (putKey fs path key value))
| request_delete key :
    keyRequest fs path (fst (deleteKey fs path key))
      (snd (deleteKey fs path key)).

(** ** [parseArgs] of the command line entry point

    [parseInt(s, 10)]: leading white space is skipped, then an optional
    sign, then the longest run of decimal digits; without a digit the
    result is [NaN], here [None].  The result is used only in the test
    [port > 0 && port < 65536] and stored when the test holds, where the
    number is an exact integer. *)

Definition isDigit (c : char) : bool := ((48 <=? c) && (c <=? 57))%N.

Fixpoint digitsValue (s : jsstring) (acc : Z) : Z :=
  match s with
  | c :: s' =>
      if isDigit c then digitsValue s' (10 * acc + (Z.of_N c - 48))%Z
      else acc
  | [] => acc
  end.

Definition parseInt10 (s : jsstring) : option Z :=
  let s := trimStart s in
  let '(sign, s) :=
    match s with
    | c :: s' =>
        if (c =? 45)%N then ((-1)%Z, s')
        else if (c =? 43)%N then (1%Z, s')
        else (1%Z, s)
    | [] => (1%Z, s)
    end in
  match s with
  | c :: _ => if isDigit c then Some (sign * digitsValue s 0)%Z else None
  | [] => None
  end.

(** The [config] object of [parseArgs]. *)
Record CliConfig : Type := mkCli {
  port : Z;
  cwd : jsstring
}.

(** How [parseArgs] ends: it returns the configuration, or the process
    exits with code 0 after the help text or the version was printed. *)
Inductive Printed : Type := printed_help | printed_version.

Inductive CliOutcome : Type :=
| cli_config (config : CliConfig)
| cli_exit (code : Z) (printed : Printed).

(** The [--port] block of the loop body: the configuration after it, and
    whether the next argument was consumed ([i++]). *)
Definition portOption (arg : jsstring) (next : option jsstring)
  (config : CliConfig) : CliConfig * bool :=
  if eqb_str arg (lit "--port") || eqb_str arg (lit "-p") then
    match next with
    | Some (c :: rest) =>
        let portArg := c :: rest in
        if negb (startsWith portArg (lit "-")) then
          (match parseInt10 portArg with
           | Some n =>
               if (0 <? n)%Z && (n <? 65536)%Z
               then mkCli n (cwd config) else config
           | None => config
           end, true)
        else (config, false)
    | _ => (config, false)
    end
  else (config, false).

(** The loop of [parseArgs] over the arguments from the current one on. *)
Fixpoint parseArgsFrom (args : list jsstring) (config : CliConfig)
  : CliOutcome :=
  match args with
  | [] => cli_config config
  | arg :: rest =>
      let step := portOption arg (head rest) config in
      if eqb_str arg (lit "--help") || eqb_str arg (lit "-h")
      then cli_exit 0 printed_help
      else if eqb_str arg (lit "--version") || eqb_str arg (lit "-v")
      then cli_exit 0 printed_version
      else
        match rest with
        | _ :: rest' =>
            if snd step then parseArgsFrom rest' (fst step)
            else parseArgsFrom rest (fst step)
        | [] => parseArgsFrom rest (fst step)
        end
  end.

(** [parseArgs()], for the arguments after the script name and the
    working directory of the process. *)
Definition parseArgs (args : list jsstring) (processCwd : jsstring)
  : CliOutcome :=
  parseArgsFrom args (mkCli 0 processCwd).

(** The ports a configuration may hold: 0, for a port chosen by the
    system, or a port number. *)
Definition portInRange (config : CliConfig) : Prop :=
  port config = 0%Z \/ (0 < port config < 65536)%Z.

(** ** [scanEnvFiles] *)

Definition ENV_FILE_PATTERNS : list jsstring :=
  [lit ".env"; lit ".env.local"; lit ".env.development"; lit ".env.staging";
   lit ".env.production"; lit ".env.test"].

(** [/^\.env\.[a-zA-Z0-9_-]+$/.test(file)] *)
Definition isEnvSuffixChar (c : char) : bool :=
  ((97 <=? c) && (c <=? 122) || (65 <=? c) && (c <=? 90)
   || (48 <=? c) && (c <=? 57) || (c =? 95) || (c =? 45))%N.

Definition matchesEnvSuffix (file : jsstring) : bool :=
  startsWith file (lit ".env.")
  && match drop 5 file with
     | [] => false
     | suffix => forallb isEnvSuffixChar suffix
     end.

(** The two tests on a name of the directory, before [statSync]. *)
Definition isEnvFileName (file : jsstring) : bool :=
  (existsb (eqb_str file) ENV_FILE_PATTERNS || matchesEnvSuffix file)
  && negb (eqb_str file (lit ".env.keys")).

(** What [readdirSync] returns: the names, each with what
    [statSync(path.join(cwd, name)).isFile()] gives, or [None] when
    [statSync] throws for it. *)
Definition DirContents := list (jsstring * option bool).

(** The [for] loop of [scanEnvFiles] from the current name on; [files]
    holds the names pushed so far.  The loop is inside the [try]: when
    [statSync] throws, the loop is left with the names pushed so far. *)
Fixpoint scanLoop (dirContents : DirContents) (files : list jsstring)
  : list jsstring :=
  match dirContents with
  | [] => files
  | (file, stat) :: rest =>
      if isEnvFileName file then
        match stat with
        | Some true => scanLoop rest (files ++ [file])
        | Some false => scanLoop rest files
        | None => files
        end
      else scanLoop rest files
  end.

(** [scanEnvFiles(cwd)], for what [readdirSync(cwd)] gives ([None] when
    it throws) and for the [sort] of the array, of which only this is
    used: the sorted array has the same elements. *)
Definition scanEnvFiles (sort : list jsstring -> list jsstring)
  (dir : option DirContents) : list jsstring :=
  sort (match dir with
        | Some dirContents => scanLoop dirContents []
        | None => []
        end).

(** ** The folder lists of the folder service

    The functions that keep the saved and the recent folders.  Each
    loads the configuration, changes it and saves it; the configuration
    file is modelled by the object [loadConfig] returns for it, and a
    call by its completion together with the configuration afterwards
    ([saveConfig] is taken to succeed).  [maxRecent] is an integer.
    What the functions ask of the file system and of [path] comes in a
    [World]. *)

Record RecentItem : Type := mkRecent {
  recentPath : jsstring;
  recentName : jsstring;
  lastOpened : jsstring
}.

Record FolderConfig : Type := mkConfig {
  savedFolders : list jsstring;
  recentFolders : list RecentItem;
  maxRecent : Z
}.

Definition DEFAULT_CONFIG : FolderConfig := mkConfig [] [] 10.

Record World : Type := mkWorld {
  resolve : jsstring -> jsstring;      (* path.resolve *)
  basename : jsstring -> jsstring;     (* path.basename *)
  existsSync : jsstring -> bool;       (* fs.existsSync *)
  isDirectory : jsstring -> bool       (* fs.statSync(p).isDirectory() *)
}.

(** [a.includes(x)] and [a.indexOf(x)] on an array of strings. *)
Definition includesArray (a : list jsstring) (x : jsstring) : bool :=
  existsb (eqb_str x) a.

Fixpoint indexOfArray_from (a : list jsstring) (x : jsstring) (k : Z) : Z :=
  match a with
  | [] => (-1)%Z
  | y :: a' => if eqb_str y x then k else indexOfArray_from a' x (k + 1)%Z
  end.

Definition indexOfArray (a : list jsstring) (x : jsstring) : Z :=
  indexOfArray_from a x 0%Z.

(** [a.slice(start, end)] and [a.splice(start, 1)] on any array. *)
Definition sliceArray {A : Type} (a : list A) (start end_ : Z) : list A :=
  let n := Z.of_nat (length a) in
  let from := relIndex start n in
  let to := relIndex end_ n in
  take (Z.to_nat (Z.max (to - from) 0)) (drop (Z.to_nat from) a).

Definition spliceOne {A : Type} (a : list A) (start : Z) : list A :=
  delete (Z.to_nat (relIndex start (Z.of_nat (length a)))) a.

Definition INVALID_FOLDER : jsstring := lit "Invalid folder path".

Definition getSavedFolders (w : World) (config : FolderConfig)
  : list jsstring :=
  List.filter (existsSync w) (savedFolders config).

Definition addSavedFolder (w : World) (config : FolderConfig)
  (folderPath : jsstring) : completion bool * FolderConfig :=
  let absPath := resolve w folderPath in
  if negb (existsSync w absPath) || negb (isDirectory w absPath) then
    (Throw (Error INVALID_FOLDER), config)
  else if negb (includesArray (savedFolders config) absPath) then
    (Normal true,
     mkConfig (savedFolders config ++ [absPath]) (recentFolders config)
       (maxRecent config))
  else (Normal true, config).

Definition removeSavedFolder (w : World) (config : FolderConfig)
  (folderPath : jsstring) : completion bool * FolderConfig :=
  let absPath := resolve w folderPath in
  let index := indexOfArray (savedFolders config) absPath in
  if (index >? -1)%Z then
    (Normal true,
     mkConfig (spliceOne (savedFolders config) index) (recentFolders config)
       (maxRecent config))
  else (Normal true, config).

Definition getRecentFolders (w : World) (config : FolderConfig)
  : list RecentItem :=
  sliceArray
    (List.filter (fun item => existsSync w (recentPath item))
       (recentFolders config))
    0 (maxRecent config).

(** [now] is [new Date().toISOString()]. *)
Definition addRecentFolder (w : World) (now : jsstring)
  (config : FolderConfig) (folderPath : jsstring) : FolderConfig :=
  let absPath := resolve w folderPath in
  if negb (existsSync w absPath) then config
  else
    let others :=
      List.filter (fun item => negb (eqb_str (recentPath item) absPath))
        (recentFolders config) in
    let unshifted := mkRecent absPath (basename w absPath) now :: others in
    mkConfig (savedFolders config)
      (sliceArray unshifted 0 (maxRecent config)) (maxRecent config).

(** ** Facts about the string primitives *)

Section StringFacts.

Implicit Types (s t p : jsstring) (c : char).

Lemma eqb_str_eq s t : eqb_str s t = true <-> s = t.
Proof.
  revert t; induction s as [|c s IH]; intros [|d t]; simpl;
    try (split; [discriminate | congruence]); [tauto |].
  rewrite andb_true_iff, N.eqb_eq, IH.
  split; [intros [-> ->]; reflexivity | intros [= -> ->]; auto].
Qed.

Lemma eqb_str_refl s : eqb_str s s = true.
Proof. apply eqb_str_eq; reflexivity. Qed.

Lemma eqb_str_neq s t : eqb_str s t = false <-> s <> t.
Proof.
  rewrite <- eqb_str_eq. destruct (eqb_str s t); split; congruence.
Qed.

Lemma includes_true s c : includes s c = true <-> In c s.
Proof.
  unfold includes. rewrite existsb_exists. split.
  - intros (x & Hx & Heq). apply N.eqb_eq in Heq. subst; assumption.
  - intros H. exists c. split; [assumption | apply N.eqb_refl].
Qed.

Lemma includes_false s c : includes s c = false <-> ~ In c s.
Proof.
  rewrite <- includes_true. destruct (includes s c); split; congruence.
Qed.

Lemma includes_app s t c :
  includes (s ++ t) c = includes s c || includes t c.
Proof. unfold includes. apply existsb_app. Qed.

(** [indexOf]: either the code unit does not occur, or the string splits
    at its first occurrence. *)
Lemma indexOf_from_spec s c k :
  (indexOf_from s c k = (-1)%Z /\ ~ In c s) \/
  (exists pre post, s = pre ++ c :: post /\ ~ In c pre /\
     indexOf_from s c k = (k + len pre)%Z).
Proof.
  revert k; induction s as [|x s IH]; intros k; simpl.
  - left. auto.
  - destruct (N.eqb_spec x c) as [->|Hne].
    + right. exists [], s. unfold len; simpl. split_and!; auto. lia.
    + destruct (IH (k + 1)%Z) as [(E & Hn)|(pre & post & -> & Hn & E)].
      * left. split_and!; auto. intros [?|?]; congruence.
      * right. exists (x :: pre), post. split_and!; auto.
        -- intros [?|?]; congruence.
        -- rewrite E. unfold len; simpl length. lia.
Qed.

Lemma indexOf_none s c : indexOf s c = (-1)%Z <-> ~ In c s.
Proof.
  unfold indexOf.
  destruct (indexOf_from_spec s c 0) as [(E & Hn)|(pre & post & -> & Hn & E)].
  - tauto.
  - split.
    + rewrite E. unfold len. lia.
    + intros H. exfalso. apply H. apply in_or_app. right. left. reflexivity.
Qed.

Lemma indexOf_some s c :
  indexOf s c <> (-1)%Z ->
  exists pre post, s = pre ++ c :: post /\ ~ In c pre /\ indexOf s c = len pre.
Proof.
  unfold indexOf. intros H.
  destruct (indexOf_from_spec s c 0) as [(E & _)|(pre & post & -> & Hn & E)].
  - congruence.
  - exists pre, post. split_and!; auto.
Qed.

Lemma substring_prefix pre post :
  substring (pre ++ post) 0 (len pre) = pre.
Proof.
  unfold substring, clamp, len. rewrite length_app.
  replace (Z.min (Z.max 0 0) _) with 0%Z by lia.
  replace (Z.min (Z.max (Z.of_nat (length pre)) 0) _)
    with (Z.of_nat (length pre)) by lia.
  replace (Z.min 0 _) with 0%Z by lia.
  replace (Z.max 0 _ - 0)%Z with (Z.of_nat (length pre)) by lia.
  rewrite Nat2Z.id. simpl. apply take_app_length.
Qed.

Lemma substringFrom_suffix pre c post :
  substringFrom (pre ++ c :: post) (len pre + 1) = post.
Proof.
  unfold substringFrom, substring, clamp, len.
  rewrite length_app. simpl length.
  set (n := length pre). set (m := length post).
  replace (Z.min (Z.max (Z.of_nat n + 1) 0) _) with (Z.of_nat (S n)) by lia.
  replace (Z.min (Z.max (Z.of_nat (n + S m)) 0) _)
    with (Z.of_nat (n + S m)) by lia.
  replace (Z.min (Z.of_nat (S n)) _) with (Z.of_nat (S n)) by lia.
  replace (Z.max (Z.of_nat (S n)) _ - _)%Z with (Z.of_nat m) by lia.
  rewrite !Nat2Z.id.
  replace (pre ++ c :: post) with ((pre ++ [c]) ++ post)
    by (rewrite <- app_assoc; reflexivity).
  rewrite drop_app_length'; [apply firstn_all |].
  rewrite length_app; simpl; lia.
Qed.

End StringFacts.

(** ** Facts about [split], [join] and the parse loop *)

Section SplitJoin.

Implicit Types (s sep : jsstring) (c : char) (a : list jsstring).

Lemma join_fold_app a sep s t :
  fold_left (fun r e => r ++ sep ++ e) a (s ++ t)
  = s ++ fold_left (fun r e => r ++ sep ++ e) a t.
Proof.
  revert t; induction a as [|x a IH]; intros t; simpl; [reflexivity |].
  rewrite <- app_assoc. apply IH.
Qed.

Lemma join_cons2 x y a sep :
  join (x :: y :: a) sep = x ++ sep ++ join (y :: a) sep.
Proof.
  unfold join; simpl.
  rewrite (join_fold_app a sep x (sep ++ y)).
  rewrite (join_fold_app a sep sep y). reflexivity.
Qed.

Lemma split_not_nil s c : split s c <> [].
Proof.
  destruct s as [|x s]; simpl; [discriminate |].
  destruct (x =? c)%N; [discriminate |].
  destruct (split s c); discriminate.
Qed.

(** Joining what [split] gives, with the separator, restores the text. *)
Lemma join_split s c : join (split s c) [c] = s.
Proof.
  induction s as [|x s IH]; simpl; [reflexivity |].
  destruct (N.eqb_spec x c) as [->|Hne].
  - pose proof (split_not_nil s c) as Hnn.
    destruct (split s c) as [|seg segs]; [congruence |].
    rewrite join_cons2, IH. reflexivity.
  - destruct (split s c) as [|seg segs] eqn:E.
    + exfalso. eapply split_not_nil; eassumption.
    + rewrite <- IH. unfold join.
      apply (join_fold_app segs [c] [x] seg).
Qed.

(** No segment contains the separator. *)
Lemma split_segments s c : Forall (fun seg => ~ In c seg) (split s c).
Proof.
  induction s as [|x s IH]; simpl.
  - constructor; [intros [] | constructor].
  - destruct (N.eqb_spec x c) as [->|Hne].
    + constructor; [intros [] | assumption].
    + destruct (split s c) as [|seg segs].
      * constructor; [| constructor]. intros [?|[]]; congruence.
      * inversion IH as [|? ? Hseg Hsegs]; subst.
        constructor; [| assumption]. intros [?|?]; [congruence | auto].
Qed.

(** The push loop of [parseEnvFile] builds the image of the segments. *)
Lemma push_loop (f : jsstring -> Line) a (acc : list Line) :
  fold_left (fun acc raw => acc ++ [f raw]) a acc = acc ++ map f a.
Proof.
  revert acc; induction a as [|x a IH]; intros acc; simpl.
  - symmetry; apply app_nil_r.
  - rewrite IH, <- app_assoc. reflexivity.
Qed.

Lemma lines_parseContent path content :
  lines (parseContent path content) = map parseLine (split content LF).
Proof. unfold parseContent; simpl. apply push_loop. Qed.

End SplitJoin.

(** ** Facts about [find] and [findIndex] with the key callback *)

Section Find.

Implicit Types (key : jsstring) (a : list Line) (l : Line).

Lemma isEntryFor_true key l :
  isEntryFor key l = true <->
  exists value enc raw, l = line_entry key value enc raw.
Proof.
  destruct l as [r|r|k v e r|r]; simpl;
    try (split; [discriminate | intros (? & ? & ? & [=])]).
  rewrite eqb_str_eq. split.
  - intros ->. eauto.
  - intros (? & ? & ? & [= -> _ _ _]). reflexivity.
Qed.

Lemma find_none key a :
  find (isEntryFor key) a = None <->
  ~ exists value enc raw, In (line_entry key value enc raw) a.
Proof.
  unfold find. rewrite list_find_None, Forall_forall. split.
  - intros H (v & e & r & Hin). apply list_elem_of_In in Hin.
    apply (H _ Hin). apply isEntryFor_true. eauto.
  - intros H l Hin Hl. apply isEntryFor_true in Hl as (v & e & r & ->).
    apply H. exists v, e, r. apply list_elem_of_In. assumption.
Qed.

(** When [find] succeeds, the array splits around the first entry with
    the key. *)
Lemma find_some key a i l :
  find (isEntryFor key) a = Some (i, l) ->
  exists value enc raw,
    l = line_entry key value enc raw /\
    a = take i a ++ l :: drop (S i) a /\
    length (take i a) = i /\
    (forall l', In l' (take i a) -> isEntryFor key l' = false).
Proof.
  unfold find. intros (Hi & Hl & Hbefore)%list_find_Some.
  apply isEntryFor_true in Hl as (v & e & r & ->).
  exists v, e, r. split_and!.
  - reflexivity.
  - symmetry. apply take_drop_middle. assumption.
  - apply length_take_le. apply lookup_lt_Some in Hi. lia.
  - intros l' Hin. apply list_elem_of_In in Hin.
    apply list_elem_of_lookup in Hin as (j & Hj).
    pose proof (lookup_lt_Some _ _ _ Hj) as Hlt.
    rewrite length_take in Hlt.
    rewrite lookup_take_lt in Hj by lia.
    specialize (Hbefore j l' Hj ltac:(lia)).
    destruct (isEntryFor key l'); [exfalso; auto | reflexivity].
Qed.

Lemma find_hasEntry key doc :
  hasEntry key doc <-> exists i l, find (isEntryFor key) (lines doc) = Some (i, l).
Proof.
  unfold hasEntry. split.
  - intros H. destruct (find (isEntryFor key) (lines doc)) as [[i l]|] eqn:E.
    + eauto.
    + apply find_none in E. contradiction.
  - intros (i & l & E). destruct (find_some _ _ _ _ E) as (v & e & r & -> & Ha & _).
    exists v, e, r. rewrite Ha. apply in_or_app. right. left. reflexivity.
Qed.

Lemma findIndex_find key a :
  findIndex (isEntryFor key) a =
  match find (isEntryFor key) a with
  | Some (i, _) => Z.of_nat i
  | None => (-1)%Z
  end.
Proof. reflexivity. Qed.

Lemma splice1_delete a i :
  i < length a -> splice1 a (Z.of_nat i) = take i a ++ drop (S i) a.
Proof.
  intros Hi. unfold splice1, relIndex.
  destruct (Z.ltb_spec (Z.of_nat i) 0); [lia |].
  rewrite Z.min_l by lia. rewrite Nat2Z.id. apply delete_take_drop.
Qed.

End Find.

(** ** The mutators *)

Lemma addEntry_cases doc key value :
  (hasEntry key doc /\
   addEntry doc key value = (Throw (DuplicateKeyError key), doc)) \/
  (~ hasEntry key doc /\
   addEntry doc key value =
     (Normal tt,
      mkDoc (filepath doc)
        (lines doc ++
         [line_entry key value (startsWith value ENCRYPTED_PREFIX)
            (key ++ [EQUALS] ++ value)]))).
Proof.
  unfold addEntry.
  destruct (find (isEntryFor key) (lines doc)) as [[i l]|] eqn:E.
  - left. split; [apply find_hasEntry; eauto | reflexivity].
  - right. split; [| reflexivity].
    intros (i & l & E')%find_hasEntry. congruence.
Qed.

Lemma updateEntry_cases doc key newValue :
  (~ hasEntry key doc /\
   updateEntry doc key newValue = (Throw (KeyNotFoundError key), doc)) \/
  (hasEntry key doc /\
   exists i value enc raw,
     find (isEntryFor key) (lines doc) = Some (i, line_entry key value enc raw) /\
     updateEntry doc key newValue =
       (Normal tt,
        mkDoc (filepath doc)
          (<[i := line_entry key newValue
                    (startsWith newValue ENCRYPTED_PREFIX)
                    (key ++ [EQUALS] ++ newValue)]> (lines doc)))).
Proof.
  unfold updateEntry.
  destruct (find (isEntryFor key) (lines doc)) as [[i l]|] eqn:E.
  - right. split; [apply find_hasEntry; eauto |].
    destruct (find_some _ _ _ _ E) as (v & e & r & -> & _).
    exists i, v, e, r. split; reflexivity.
  - left. split; [| reflexivity].
    intros (i & l & E')%find_hasEntry. congruence.
Qed.

Lemma deleteEntry_cases doc key :
  (~ hasEntry key doc /\
   deleteEntry doc key = (Throw (KeyNotFoundError key), doc)) \/
  (hasEntry key doc /\
   exists before value enc raw after,
     lines doc = before ++ line_entry key value enc raw :: after /\
     (forall l, In l before -> isEntryFor key l = false) /\
     deleteEntry doc key =
       (Normal tt, mkDoc (filepath doc) (before ++ after))).
Proof.
  unfold deleteEntry. rewrite findIndex_find.
  destruct (find (isEntryFor key) (lines doc)) as [[i l]|] eqn:E.
  - right. split; [apply find_hasEntry; eauto |].
    destruct (find_some _ _ _ _ E) as (v & e & r & -> & Ha & Hlen & Hbefore).
    exists (take i (lines doc)), v, e, r, (drop (S i) (lines doc)).
    split_and!; [assumption.. |].
    destruct (Z.eqb_spec (Z.of_nat i) (-1)); [lia |].
    rewrite splice1_delete; [reflexivity |].
    rewrite Ha, length_app, Hlen. simpl. lia.
  - left. split; [| reflexivity].
    intros (i & l & E')%find_hasEntry. congruence.
Qed.

(** C4: [addEntry] fails, with the duplicate-key error, exactly when an
    entry with the key exists; [updateEntry] and [deleteEntry] fail, with
    the key-not-found error, exactly when none exists; and a failed call
    leaves the document as it was. *)
Theorem mutators_fail_exactly doc key value :
  (failed (addEntry doc key value) <-> hasEntry key doc) /\
  (failed (updateEntry doc key value) <-> ~ hasEntry key doc) /\
  (failed (deleteEntry doc key) <-> ~ hasEntry key doc) /\
  (failed (addEntry doc key value) ->
   addEntry doc key value = (Throw (DuplicateKeyError key), doc)) /\
  (failed (updateEntry doc key value) ->
   updateEntry doc key value = (Throw (KeyNotFoundError key), doc)) /\
  (failed (deleteEntry doc key) ->
   deleteEntry doc key = (Throw (KeyNotFoundError key), doc)).
Proof.
  unfold failed.
  destruct (addEntry_cases doc key value) as [[Ha Ea]|[Ha Ea]];
  destruct (updateEntry_cases doc key value)
    as [[Hu Eu]|[Hu (i & v & e & r & _ & Eu)]];
  destruct (deleteEntry_cases doc key)
    as [[Hd Ed]|[Hd (b & v' & e' & r' & a & _ & _ & Ed)]];
  try contradiction;
  rewrite Ea, Eu, Ed; simpl;
  (split_and!;
   [ split; [try tauto; intros [? [=]] | try tauto; eauto]
   | split; [try tauto; intros [? [=]] | try tauto; eauto]
   | split; [try tauto; intros [? [=]] | try tauto; eauto]
   | try reflexivity; intros [? [=]]
   | try reflexivity; intros [? [=]]
   | try reflexivity; intros [? [=]] ]).
Qed.

Lemma mutators_fail_exactly_witness :
  addEntry sampleDoc (lit "A") (lit "2")
  = (Throw (DuplicateKeyError (lit "A")), sampleDoc)
  /\ deleteEntry sampleDoc (lit "C")
  = (Throw (KeyNotFoundError (lit "C")), sampleDoc).
Proof.
  split.
  - apply (mutators_fail_exactly sampleDoc (lit "A") (lit "2")).
    eexists. vm_compute. reflexivity.
  - apply (mutators_fail_exactly sampleDoc (lit "C") (lit "2")).
    eexists. vm_compute. reflexivity.
Defined.

(** C5: for a key that no entry has, [addEntry] succeeds and puts one new
    entry, with the given key and value, after all the lines the document
    had, which stay as they were. *)
Theorem addEntry_appends doc key value :
  ~ hasEntry key doc ->
  exists enc raw,
    addEntry doc key value =
      (Normal tt,
       mkDoc (filepath doc) (lines doc ++ [line_entry key value enc raw])).
Proof.
  intros Hno. destruct (addEntry_cases doc key value) as [[Ha _]|[_ Ea]].
  - contradiction.
  - eauto.
Qed.

Lemma addEntry_appends_witness :
  exists enc raw,
    addEntry sampleDoc (lit "C") (lit "3") =
      (Normal tt,
       mkDoc (filepath sampleDoc)
         (lines sampleDoc ++ [line_entry (lit "C") (lit "3") enc raw])).
Proof.
  apply (addEntry_appends sampleDoc (lit "C") (lit "3")).
  intros (i & l & E)%find_hasEntry. vm_compute in E. discriminate.
Defined.

(** C6: when an entry with the key exists, [deleteEntry] takes out the
    first such entry line and nothing else: the lines before it and the
    lines after it (later entries with the same key among them) stay, in
    their order. *)
Theorem deleteEntry_removes_first doc key :
  hasEntry key doc ->
  exists before value enc raw after,
    lines doc = before ++ line_entry key value enc raw :: after /\
    (forall l, In l before -> isEntryFor key l = false) /\
    deleteEntry doc key =
      (Normal tt, mkDoc (filepath doc) (before ++ after)).
Proof.
  intros Hhas. destruct (deleteEntry_cases doc key) as [[Hd _]|[_ H]].
  - contradiction.
  - exact H.
Qed.

Lemma deleteEntry_removes_first_witness :
  exists before value enc raw after,
    lines sampleDoc = before ++ line_entry (lit "A") value enc raw :: after /\
    (forall l, In l before -> isEntryFor (lit "A") l = false) /\
    deleteEntry sampleDoc (lit "A") =
      (Normal tt, mkDoc (filepath sampleDoc) (before ++ after)).
Proof.
  apply (deleteEntry_removes_first sampleDoc (lit "A")).
  exists (lit "1"), false, (lit "A=1"). vm_compute. right. left. reflexivity.
Defined.

(** ** The serializer *)

Section Serializer.

Implicit Types (v out : jsstring) (l : Line).

Lemma replaceAll_escaped v :
  escaped v (replaceAll v DQUOTE [BACKSLASH; DQUOTE]).
Proof.
  induction v as [|c v IH]; simpl; [constructor |].
  destruct (N.eqb_spec c DQUOTE) as [->|Hne]; simpl.
  - constructor. assumption.
  - constructor; assumption.
Qed.

Lemma needsQuotes_true v : needsQuotes v = true <-> mustBeQuoted v.
Proof.
  unfold needsQuotes, mustBeQuoted.
  rewrite !orb_true_iff, !includes_true. tauto.
Qed.

Lemma needsQuotes_false v : needsQuotes v = false <-> ~ mustBeQuoted v.
Proof.
  rewrite <- needsQuotes_true. destruct (needsQuotes v); split; congruence.
Qed.

Lemma writeLine_emitted l : emitted l (writeLine l).
Proof.
  destruct l as [r|r|k v e r|r]; simpl; try constructor.
  destruct (needsQuotes v) eqn:E.
  - apply (emitted_quoted k v e r).
    + apply needsQuotes_true; assumption.
    + apply replaceAll_escaped.
  - apply emitted_plain. apply needsQuotes_false; assumption.
Qed.

Lemma join_joinLines (outs : list jsstring) : join outs [LF] = joinLines outs.
Proof.
  induction outs as [|x outs IH]; [reflexivity |].
  destruct outs as [|y outs]; [reflexivity |].
  rewrite join_cons2, IH. reflexivity.
Qed.

(** The joined text has the code units of the lines and one more for
    each gap between two lines. *)
Lemma length_joinLines (outs : list jsstring) :
  length (joinLines outs)
  = list_sum (map (@length char) outs) + pred (length outs).
Proof.
  induction outs as [|x outs IH]; [reflexivity |].
  destruct outs as [|y outs].
  - simpl. lia.
  - change (joinLines (x :: y :: outs)) with (x ++ LF :: joinLines (y :: outs)).
    rewrite length_app, length_cons, IH. simpl. lia.
Qed.

End Serializer.

(** C3: [serialize] emits every blank, comment and unrecognized line as
    its raw text, every entry as [key="v"] with each double quote of the
    value behind a backslash when the value has a space, [#], line feed
    or quote character and as [key=value] otherwise, and joins the
    emitted texts with exactly one line feed between consecutive ones and
    none after the last. *)
Theorem serialize_emits_and_joins doc :
  exists outs,
    Forall2 emitted (lines doc) outs /\
    serialize doc = joinLines outs /\
    length (serialize doc)
    = list_sum (map (@length char) outs) + pred (length (lines doc)).
Proof.
  exists (map writeLine (lines doc)). split_and!.
  - induction (lines doc) as [|l ls IH]; simpl; constructor;
      [apply writeLine_emitted | assumption].
  - apply join_joinLines.
  - unfold serialize. rewrite join_joinLines, length_joinLines, length_map.
    reflexivity.
Qed.

(** C10: two documents whose lines are the same except for the raw text
    of entry lines are serialized to the same text. *)
Theorem serialize_ignores_entry_raw doc1 doc2 :
  Forall2 sameButEntryRaw (lines doc1) (lines doc2) ->
  serialize doc1 = serialize doc2.
Proof.
  intros H. unfold serialize. f_equal.
  induction H as [|l1 l2 ls1 ls2 Hl _ IH]; simpl; [reflexivity |].
  f_equal; [| assumption].
  destruct Hl; reflexivity.
Qed.

Lemma serialize_ignores_entry_raw_witness :
  serialize
    (mkDoc [] [line_entry (lit "B") (lit "secret value") false
                 (lit "B=secret value")])
  = serialize
      (mkDoc [] [line_entry (lit "B") (lit "secret value") false
                   (lit "stale")]).
Proof.
  apply serialize_ignores_entry_raw. simpl.
  constructor; [apply same_entry | constructor].
Defined.

(** ** The parser *)

Section Parser.

Implicit Types (raw s p : jsstring) (l : Line).

Lemma startsWith_true s p :
  startsWith s p = true <-> exists rest, s = p ++ rest.
Proof.
  revert s; induction p as [|d p IH]; intros s; simpl.
  - split; [eauto | reflexivity].
  - destruct s as [|c s].
    + split; [discriminate | intros (rest & [=])].
    + rewrite andb_true_iff, N.eqb_eq, IH. split.
      * intros [-> (rest & ->)]. eauto.
      * intros (rest & [= -> ->]). eauto.
Qed.

Lemma startsWith_char_in s c : startsWith s [c] = true -> In c s.
Proof.
  intros (rest & ->)%startsWith_true. left. reflexivity.
Qed.

Lemma raw_of_parseLine raw : raw_of (parseLine raw) = raw.
Proof.
  unfold parseLine.
  repeat match goal with |- context [if ?b then _ else _] => destruct b end;
    reflexivity.
Qed.

(** An entry comes from a line that has an [=]: the line splits at the
    first one, the key is the trimmed left side and the value is computed
    from the right side. *)
Lemma parseLine_entry raw key value enc raw' :
  parseLine raw = line_entry key value enc raw' ->
  exists left right,
    raw = left ++ EQUALS :: right /\ ~ In EQUALS left /\
    key = trim left /\ value = parsedValueOf right /\
    enc = startsWith value ENCRYPTED_PREFIX /\ raw' = raw.
Proof.
  unfold parseLine.
  destruct (eqb_str (trim raw) []); [discriminate |].
  destruct (startsWith (trim raw) [HASH]); [discriminate |].
  destruct (Z.eqb_spec (indexOf raw EQUALS) (-1)) as [|Hi]; [discriminate |].
  simpl. apply indexOf_some in Hi as (left & right & Hraw & Hn & Hi).
  rewrite Hi. rewrite Hraw at 1 2 3.
  rewrite substring_prefix, substringFrom_suffix.
  intros [= <- <- <- <-]. exists left, right. split_and!; auto.
Qed.

Lemma parseLine_classified raw : classified raw (variant (parseLine raw)).
Proof.
  unfold parseLine.
  destruct (eqb_str (trim raw) []) eqn:Hblank.
  { apply classified_blank. apply eqb_str_eq; assumption. }
  apply eqb_str_neq in Hblank.
  destruct (startsWith (trim raw) [HASH]) eqn:Hhash.
  { apply startsWith_true in Hhash as (rest & Hrest).
    apply (classified_comment raw rest). assumption. }
  assert (forall rest, trim raw <> HASH :: rest) as Hnc.
  { intros rest E. rewrite E in Hhash. discriminate. }
  destruct (Z.eqb_spec (indexOf raw EQUALS) (-1)) as [Hi|Hi]; simpl.
  - apply classified_unrecognized; auto. apply indexOf_none; assumption.
  - apply classified_entry; auto.
    destruct (in_dec N.eq_dec EQUALS raw) as [|Hn]; [assumption |].
    apply indexOf_none in Hn. contradiction.
Qed.

Lemma classified_unique raw v v' :
  classified raw v -> classified raw v' -> v = v'.
Proof.
  intros H H'; destruct H; destruct H'; try reflexivity;
    try congruence; try contradiction;
    match goal with
    | Hc : forall rest, trim raw <> HASH :: rest, E : trim raw = HASH :: _ |- _ =>
        destruct (Hc _ E)
    end.
Qed.

Lemma parseLine_marker raw : markerCorrect (parseLine raw).
Proof.
  destruct (parseLine raw) as [r|r|k v e r|r] eqn:E; simpl; auto.
  apply parseLine_entry in E as (left & right & _ & _ & _ & _ & -> & _).
  apply startsWith_true.
Qed.

End Parser.

(** C8: when the read succeeds, [parseEnvFile] returns a document, with
    one line per segment of the text, each keeping its raw text and being
    of the one variant the rule gives: blank when empty after trimming,
    else comment when it then starts with [#], else entry when it has an
    [=], else unrecognized. *)
Theorem parse_total_classification fs path content :
  fs path = Some content ->
  exists doc,
    parseEnvFile fs path = Normal doc /\
    Forall2 (fun raw l => raw_of l = raw /\ classified raw (variant l))
      (split content LF) (lines doc) /\
    (forall raw v v', classified raw v -> classified raw v' -> v = v').
Proof.
  intros Hread. exists (parseContent path content). split_and!.
  - unfold parseEnvFile, readFileSync. rewrite Hread. reflexivity.
  - rewrite lines_parseContent.
    induction (split content LF) as [|raw segs IH]; simpl; constructor.
    + split; [apply raw_of_parseLine | apply parseLine_classified].
    + assumption.
  - apply classified_unique.
Qed.

Lemma parse_total_classification_witness :
  exists doc,
    parseEnvFile sampleFs (lit ".env") = Normal doc /\
    Forall2 (fun raw l => raw_of l = raw /\ classified raw (variant l))
      (split sampleText LF) (lines doc) /\
    (forall raw v v', classified raw v -> classified raw v' -> v = v').
Proof.
  apply (parse_total_classification sampleFs (lit ".env") sampleText).
  reflexivity.
Defined.

(** ** The encrypted marker *)

(** C9: in every document that [parseEnvFile] produced and successful
    mutator calls then changed, the marker of each entry is true exactly
    when the entry's value begins with [encrypted:]. *)
Theorem marker_invariant doc :
  produced doc -> Forall markerCorrect (lines doc).
Proof.
  induction 1 as [path content
                 | doc key value doc' _ IH Hcall
                 | doc key value doc' _ IH Hcall
                 | doc key doc' _ IH Hcall].
  - rewrite lines_parseContent.
    induction (split content LF); simpl; constructor;
      [apply parseLine_marker | assumption].
  - destruct (addEntry_cases doc key value) as [[_ E]|[_ E]];
      rewrite E in Hcall; [discriminate |].
    apply (f_equal snd) in Hcall. cbn [snd] in Hcall. subst doc'. cbn [lines].
    apply Forall_app. split; [assumption |].
    constructor; [| constructor]. exact (startsWith_true _ _).
  - destruct (updateEntry_cases doc key value)
      as [[_ E]|[_ (i & v & e & r & _ & E)]];
      rewrite E in Hcall; [discriminate |].
    apply (f_equal snd) in Hcall. cbn [snd] in Hcall. subst doc'. cbn [lines].
    apply Forall_insert; [assumption |]. exact (startsWith_true _ _).
  - destruct (deleteEntry_cases doc key)
      as [[_ E]|[_ (b & v & e & r & a & Hl & _ & E)]];
      rewrite E in Hcall; [discriminate |].
    apply (f_equal snd) in Hcall. cbn [snd] in Hcall. subst doc'. cbn [lines].
    rewrite Hl in IH. apply Forall_app in IH as [Hb Ha].
    apply Forall_app. split; [assumption |].
    inversion Ha; assumption.
Qed.

Lemma marker_invariant_witness :
  Forall markerCorrect
    (lines (snd (updateEntry sampleDoc (lit "B") (lit "encrypted:abc123")))).
Proof.
  apply marker_invariant.
  apply (produced_update sampleDoc (lit "B") (lit "encrypted:abc123")).
  - apply produced_parse.
  - vm_compute. reflexivity.
Defined.

(** ** Where an entry line is split *)

(** C7, as the code has it: an entry line is split at its first [=],
    whatever stands before it (a backslash does not escape it); the key
    is the trimmed text before that [=], and the value is computed from
    all the text after it, which may hold further [=]. *)
Theorem parseLine_splits_at_first_equals raw key value enc raw' :
  parseLine raw = line_entry key value enc raw' ->
  exists left right,
    raw = left ++ EQUALS :: right /\ ~ In EQUALS left /\
    key = trim left /\ value = parsedValueOf right.
Proof.
  intros (left & right & H1 & H2 & H3 & H4 & _)%parseLine_entry.
  exists left, right. auto.
Qed.

Lemma parseLine_splits_at_first_equals_witness :
  exists left right,
    lit "A\=B=C" = left ++ EQUALS :: right /\ ~ In EQUALS left /\
    lit "A\" = trim left /\ lit "B=C" = parsedValueOf right.
Proof.
  apply (parseLine_splits_at_first_equals (lit "A\=B=C") (lit "A\")
           (lit "B=C") false (lit "A\=B=C")).
  vm_compute. reflexivity.
Defined.

(** C7, as stated, fails: in [A\=B=C] the first [=] that no backslash
    escapes is the second one, but the code splits at the first, so the
    key is [A\] and not [A\=B]. *)
Lemma first_unescaped_equals_refuted :
  ~ (forall raw key value enc raw',
       parseLine raw = line_entry key value enc raw' ->
       key = trim (substring raw 0 (firstUnescaped raw EQUALS)) /\
       value = parsedValueOf
                 (substringFrom raw (firstUnescaped raw EQUALS + 1))).
Proof.
  intros H.
  destruct (H (lit "A\=B=C") (lit "A\") (lit "B=C") false (lit "A\=B=C")
              ltac:(vm_compute; reflexivity)) as [Hkey _].
  vm_compute in Hkey. discriminate.
Qed.

(** ** Quoted values *)

Section Quoted.

Implicit Types (t right : jsstring).

(** [slice(1, -1)] takes off the first and the last code unit, and gives
    the empty string for a string of fewer than two. *)
Lemma slice_inner t : slice t 1 (-1) = removelast (tail t).
Proof.
  destruct t as [|c t]; [reflexivity |].
  unfold slice, relIndex, len. simpl length. simpl tail.
  destruct (Z.ltb_spec 1 0); [lia |].
  destruct (Z.ltb_spec (-1) 0); [| lia].
  rewrite (Z.min_l 1) by lia.
  change (Z.to_nat 1) with 1. simpl drop.
  rewrite removelast_firstn_len. f_equal. lia.
Qed.

(** The code and the specification compute the same value from the text
    after the [=], unless that text trims to a single quote character. *)
Lemma parsedValueOf_specValue right :
  trim right <> [DQUOTE] -> trim right <> [SQUOTE] ->
  parsedValueOf right = specValue right.
Proof.
  unfold parsedValueOf, specValue.
  generalize dependent (trim right). intros t Hd Hs.
  destruct ((startsWith t [DQUOTE] && endsWith t [DQUOTE])
            || (startsWith t [SQUOTE] && endsWith t [SQUOTE])) eqn:Hq;
    [| reflexivity].
  assert (2 <= len t)%Z as Hlen.
  { apply orb_true_iff in Hq as [Hq|Hq];
      apply andb_true_iff in Hq as [(rest & Ht)%startsWith_true _];
      simpl in Ht; destruct rest as [|c rest]; try congruence;
      rewrite Ht; unfold len; simpl length; lia. }
  apply Z.leb_le in Hlen. rewrite Hlen. simpl. apply slice_inner.
Qed.

End Quoted.

(** C2, at the input where the code departs from it: for the line made
    of [A], [=] and one double quote, the text after the [=] trims to
    that double quote, which starts and ends with the same quote
    character but has length 1; the specification keeps it as the value,
    the code gives the empty value. *)
Theorem lone_quote_value :
  parseLine (lit "A=" ++ [DQUOTE])
  = line_entry (lit "A") [] false (lit "A=" ++ [DQUOTE])
  /\ parsedValueOf [DQUOTE] = []
  /\ specValue [DQUOTE] = [DQUOTE].
Proof. split_and!; reflexivity. Qed.

(** ** Round trip *)

Section RoundTrip.

Implicit Types (raw text left right : jsstring).

Lemma indexOf_from_first left right c k :
  ~ In c left ->
  indexOf_from (left ++ c :: right) c k = (k + len left)%Z.
Proof.
  revert k; induction left as [|x left IH]; intros k Hn; simpl.
  - rewrite N.eqb_refl. unfold len; simpl; lia.
  - destruct (N.eqb_spec x c) as [->|Hne].
    + exfalso. apply Hn. left. reflexivity.
    + rewrite IH by (intros Hin; apply Hn; right; assumption).
      unfold len; simpl length. lia.
Qed.

Lemma parsedValueOf_plain right :
  trim right = right -> needsQuotes right = false ->
  parsedValueOf right = right.
Proof.
  intros Ht Hq. unfold parsedValueOf. rewrite Ht.
  apply needsQuotes_false in Hq. unfold mustBeQuoted in Hq.
  destruct (startsWith right [DQUOTE]) eqn:Hd.
  { apply startsWith_char_in in Hd. tauto. }
  destruct (startsWith right [SQUOTE]) eqn:Hs.
  { apply startsWith_char_in in Hs. tauto. }
  reflexivity.
Qed.

(** A canonical line is written back as it was read. *)
Lemma writeLine_parseLine raw :
  canonicalLine raw = true -> writeLine (parseLine raw) = raw.
Proof.
  unfold canonicalLine. intros Hc.
  destruct (parseLine raw) as [r|r|k v e r|r] eqn:E;
    try (rewrite <- (raw_of_parseLine raw), E; reflexivity).
  simpl in Hc. unfold canonicalEntry in Hc.
  apply parseLine_entry in E
    as (left & right & Hraw & Hn & -> & -> & _ & _).
  subst raw.
  unfold indexOf in Hc. rewrite indexOf_from_first in Hc by assumption.
  rewrite Z.add_0_l in Hc.
  rewrite substring_prefix, substringFrom_suffix in Hc.
  apply andb_true_iff in Hc as [Hc Hq].
  apply andb_true_iff in Hc as [Hl Hr].
  apply eqb_str_eq in Hl. apply eqb_str_eq in Hr.
  apply negb_true_iff in Hq.
  rewrite (parsedValueOf_plain right Hr Hq), Hl.
  simpl. rewrite Hq. reflexivity.
Qed.

End RoundTrip.

(** C1, as the code has it: a text round-trips byte for byte when, in
    every entry line, neither the text before the first [=] nor the text
    after it has anything at its ends that [trim] removes, and the text
    after it has no space, [#] or quote character. *)
Theorem canonical_round_trip path text :
  canonical text = true -> serialize (parseContent path text) = text.
Proof.
  unfold canonical, serialize. intros Hc.
  rewrite lines_parseContent, map_map.
  rewrite <- (join_split text LF) at 2. f_equal.
  rewrite forallb_forall in Hc.
  rewrite <- (map_id (split text LF)) at 2.
  apply map_ext_in. intros raw Hin. apply writeLine_parseLine. auto.
Qed.

Lemma canonical_round_trip_witness :
  serialize
    (parseContent (lit ".env")
       (lit "# db" ++ [LF] ++ lit "URL=postgres://h/db?a=b" ++ [LF; LF]
        ++ lit "no equals here" ++ [LF]))
  = lit "# db" ++ [LF] ++ lit "URL=postgres://h/db?a=b" ++ [LF; LF]
    ++ lit "no equals here" ++ [LF].
Proof.
  apply canonical_round_trip. vm_compute. reflexivity.
Defined.

(** C1, as stated, fails: in the text [A=1], carriage return, line feed,
    no value is single-quoted and the value [1] needs no quoting, yet the
    carriage return is trimmed away and the text written back is [A=1],
    line feed. *)
Lemma round_trip_refuted :
  ~ (forall text,
       eligible text = true -> serialize (parseContent [] text) = text).
Proof.
  intros H.
  specialize (H (lit "A=1" ++ [CR; LF]) ltac:(vm_compute; reflexivity)).
  vm_compute in H. discriminate.
Qed.

(** ** The examples of the specification *)

Example sample_entries :
  getEntries sampleDoc
  = [(lit "A", lit "1", false); (lit "B", lit "has space", false)].
Proof. reflexivity. Qed.

Example sample_round_trip : serialize sampleDoc = sampleText.
Proof. reflexivity. Qed.

(** After [updateEntry] the stored raw text of [B] is unquoted, and the
    line written for it is quoted. *)
Example sample_update_requoted :
  let doc := snd (updateEntry sampleDoc (lit "B") (lit "secret value")) in
  lines doc !! 3
  = Some (line_entry (lit "B") (lit "secret value") false
            (lit "B=secret value"))
  /\ (writeLine <$> lines doc) !! 3
     = Some (lit "B=" ++ [DQUOTE] ++ lit "secret value" ++ [DQUOTE]).
Proof. split; reflexivity. Qed.

Example sample_marker :
  parseLine (lit "K=encrypted:abc123")
  = line_entry (lit "K") (lit "encrypted:abc123") true
      (lit "K=encrypted:abc123")
  /\ parseLine (lit "K=plain")
     = line_entry (lit "K") (lit "plain") false (lit "K=plain").
Proof. split; reflexivity. Qed.

(** ** How the mutators compose *)

Section Compose.

Implicit Types (doc : EnvDocument) (key value : jsstring) (a : list Line).

Lemma mkDoc_eta doc : mkDoc (filepath doc) (lines doc) = doc.
Proof. destruct doc; reflexivity. Qed.

Lemma isEntryFor_entry key k v e r :
  isEntryFor key (line_entry k v e r) = true <-> k = key.
Proof. simpl. apply eqb_str_eq. Qed.

Lemma find_app_last key a l :
  find (isEntryFor key) a = None -> isEntryFor key l = true ->
  find (isEntryFor key) (a ++ [l]) = Some (length a, l).
Proof.
  unfold find. intros Hnone Hl. apply list_find_Some. split_and!.
  - apply list_lookup_middle. reflexivity.
  - assumption.
  - intros j y Hj Hlt. rewrite lookup_app_l in Hj by assumption.
    apply list_find_None in Hnone. rewrite Forall_forall in Hnone.
    apply Hnone. apply list_elem_of_lookup. eauto.
Qed.

(** Replacing the found entry by another entry with the same key does not
    move what [find] finds for any key. *)
Lemma find_insert_same_key key' a i k v e r v' e' r' :
  a !! i = Some (line_entry k v e r) ->
  find (isEntryFor key') (<[i := line_entry k v' e' r']> a)
  = match find (isEntryFor key') a with
    | Some (j, l) =>
        Some (j, if Nat.eqb j i then line_entry k v' e' r' else l)
    | None => None
    end.
Proof.
  unfold find. revert i; induction a as [|x a IH]; intros i Hi.
  - discriminate.
  - destruct i as [|i]; simpl in Hi.
    + injection Hi as ->. simpl.
      destruct (eqb_str k key'); simpl.
      * reflexivity.
      * destruct (list_find _ a) as [[j l]|]; reflexivity.
    + simpl. destruct (decide (isEntryFor key' x = true)).
      * reflexivity.
      * rewrite (IH i Hi).
        destruct (list_find _ a) as [[j l]|]; reflexivity.
Qed.

End Compose.

(** X1: after a successful [addEntry], looking the key up finds the new
    entry, at the end of the lines, with the value that was given; the
    entries listed by [getEntries] are the former ones followed by the
    new one. *)
Theorem addEntry_then_lookup doc key value doc' :
  addEntry doc key value = (Normal tt, doc') ->
  find (isEntryFor key) (lines doc')
  = Some (length (lines doc),
          line_entry key value (startsWith value ENCRYPTED_PREFIX)
            (key ++ [EQUALS] ++ value))
  /\ getEntries doc'
     = getEntries doc ++ [(key, value, startsWith value ENCRYPTED_PREFIX)].
Proof.
  intros Hcall.
  destruct (addEntry_cases doc key value) as [[_ E]|[Hno E]];
    rewrite E in Hcall; [discriminate |].
  apply (f_equal snd) in Hcall. cbn [snd] in Hcall. subst doc'. cbn [lines].
  split.
  - apply find_app_last.
    + destruct (find (isEntryFor key) (lines doc)) as [[i l]|] eqn:Ef;
        [| reflexivity].
      exfalso. apply Hno. apply find_hasEntry. eauto.
    + apply isEntryFor_entry. reflexivity.
  - unfold getEntries. cbn [lines]. rewrite omap_app. reflexivity.
Qed.

Lemma addEntry_then_lookup_witness :
  find (isEntryFor (lit "C"))
    (lines (snd (addEntry sampleDoc (lit "C") (lit "3"))))
  = Some (length (lines sampleDoc),
          line_entry (lit "C") (lit "3")
            (startsWith (lit "3") ENCRYPTED_PREFIX)
            (lit "C" ++ [EQUALS] ++ lit "3"))
  /\ getEntries (snd (addEntry sampleDoc (lit "C") (lit "3")))
     = getEntries sampleDoc
       ++ [(lit "C", lit "3", startsWith (lit "3") ENCRYPTED_PREFIX)].
Proof.
  apply (addEntry_then_lookup sampleDoc (lit "C") (lit "3")).
  vm_compute. reflexivity.
Defined.

(** X2: a successful [updateEntry] changes one line only, the first
    entry with the key: the number of lines stays, every other position
    holds the line it held, and looking the key up afterwards finds, at
    the same position, the entry with the new value. *)
Theorem updateEntry_then_lookup doc key newValue doc' :
  updateEntry doc key newValue = (Normal tt, doc') ->
  exists i old,
    find (isEntryFor key) (lines doc) = Some (i, old) /\
    find (isEntryFor key) (lines doc')
    = Some (i, line_entry key newValue
                 (startsWith newValue ENCRYPTED_PREFIX)
                 (key ++ [EQUALS] ++ newValue)) /\
    length (lines doc') = length (lines doc) /\
    (forall j, j <> i -> lines doc' !! j = lines doc !! j) /\
    filepath doc' = filepath doc.
Proof.
  intros Hcall.
  destruct (updateEntry_cases doc key newValue)
    as [[_ E]|[_ (i & v & e & r & Ef & E)]];
    rewrite E in Hcall; [discriminate |].
  apply (f_equal snd) in Hcall. cbn [snd] in Hcall. subst doc'.
  cbn [lines filepath].
  exists i, (line_entry key v e r). split_and!.
  - assumption.
  - assert (lines doc !! i = Some (line_entry key v e r)) as Hi.
    { unfold find in Ef. apply list_find_Some in Ef. tauto. }
    rewrite (find_insert_same_key key _ _ _ _ _ _ _ _ _ Hi), Ef.
    rewrite Nat.eqb_refl. reflexivity.
  - apply length_insert.
  - intros j Hj. apply list_lookup_insert_ne. auto.
  - reflexivity.
Qed.

Lemma updateEntry_then_lookup_witness :
  exists i old,
    find (isEntryFor (lit "B")) (lines sampleDoc) = Some (i, old) /\
    find (isEntryFor (lit "B"))
      (lines (snd (updateEntry sampleDoc (lit "B") (lit "x y"))))
    = Some (i, line_entry (lit "B") (lit "x y")
                 (startsWith (lit "x y") ENCRYPTED_PREFIX)
                 (lit "B" ++ [EQUALS] ++ lit "x y")) /\
    length (lines (snd (updateEntry sampleDoc (lit "B") (lit "x y"))))
    = length (lines sampleDoc) /\
    (forall j, j <> i ->
       lines (snd (updateEntry sampleDoc (lit "B") (lit "x y"))) !! j
       = lines sampleDoc !! j) /\
    filepath (snd (updateEntry sampleDoc (lit "B") (lit "x y")))
    = filepath sampleDoc.
Proof.
  apply (updateEntry_then_lookup sampleDoc (lit "B") (lit "x y")).
  vm_compute. reflexivity.
Defined.

(** ** Unique keys *)

Section Keys.

Implicit Types (doc : EnvDocument) (key : jsstring) (a b : list Line).

Lemma entryKeys_app p a b :
  entryKeys (mkDoc p (a ++ b))
  = entryKeys (mkDoc p a) ++ entryKeys (mkDoc p b).
Proof.
  unfold entryKeys, getEntries. cbn [lines].
  rewrite omap_app, fmap_app. reflexivity.
Qed.

Lemma entryKeys_lines doc p : entryKeys doc = entryKeys (mkDoc p (lines doc)).
Proof. reflexivity. Qed.

Lemma entryKeys_cons_entry p k v e r a :
  entryKeys (mkDoc p (line_entry k v e r :: a)) = k :: entryKeys (mkDoc p a).
Proof. reflexivity. Qed.

Lemma entryKeys_hasEntry doc key : In key (entryKeys doc) <-> hasEntry key doc.
Proof.
  unfold hasEntry, entryKeys, getEntries.
  induction (lines doc) as [|l a IH]; simpl.
  - split; [intros [] | intros (? & ? & ? & [])].
  - destruct l as [r|r|k v e r|r]; simpl; rewrite ?IH;
      try (split;
           [ intros (v' & e' & r' & H); exists v', e', r'; right; exact H
           | intros (v' & e' & r' & [H|H]); [discriminate | eauto] ]).
    split.
    + intros [->|(v' & e' & r' & H)]; [exists v, e, r; left; reflexivity |].
      exists v', e', r'. right. exact H.
    + intros (v' & e' & r' & [H|H]).
      * injection H as -> _ _ _. left. reflexivity.
      * right. eauto.
Qed.

Lemma entryKeys_insert_same_key p a i k v e r v' e' r' :
  a !! i = Some (line_entry k v e r) ->
  entryKeys (mkDoc p (<[i := line_entry k v' e' r']> a))
  = entryKeys (mkDoc p a).
Proof.
  intros Hi.
  rewrite insert_take_drop by (eapply lookup_lt_Some; exact Hi).
  rewrite <- (take_drop_middle a i _ Hi) at 3.
  rewrite !entryKeys_app, !entryKeys_cons_entry. reflexivity.
Qed.

End Keys.

(** X3: the mutators keep entry keys unique: when no two entries of the
    document have the same key, none have after a successful [addEntry],
    [updateEntry] or [deleteEntry]. *)
Theorem mutators_keep_keys_unique doc doc' :
  NoDup (entryKeys doc) -> mutated doc doc' -> NoDup (entryKeys doc').
Proof.
  intros Hnd [key value Hcall|key value Hcall|key Hcall].
  - destruct (addEntry_cases doc key value) as [[_ E]|[Hno E]];
      rewrite E in Hcall; [discriminate |].
    apply (f_equal snd) in Hcall. cbn [snd] in Hcall. subst doc'.
    rewrite entryKeys_app. apply NoDup_app. split_and!.
    + exact Hnd.
    + intros k Hk Hin. apply list_elem_of_In in Hin. simpl in Hin.
      destruct Hin as [<-|[]].
      apply Hno. apply entryKeys_hasEntry. apply list_elem_of_In. exact Hk.
    + apply NoDup_singleton.
  - destruct (updateEntry_cases doc key value)
      as [[_ E]|[_ (i & v & e & r & Ef & E)]];
      rewrite E in Hcall; [discriminate |].
    apply (f_equal snd) in Hcall. cbn [snd] in Hcall. subst doc'.
    rewrite (entryKeys_insert_same_key _ _ _ key v e r); [exact Hnd |].
    unfold find in Ef. apply list_find_Some in Ef. tauto.
  - destruct (deleteEntry_cases doc key)
      as [[_ E]|[_ (b & v & e & r & a & Hl & _ & E)]];
      rewrite E in Hcall; [discriminate |].
    apply (f_equal snd) in Hcall. cbn [snd] in Hcall. subst doc'.
    rewrite (entryKeys_lines doc (filepath doc)), Hl, entryKeys_app,
      entryKeys_cons_entry in Hnd.
    rewrite entryKeys_app.
    apply NoDup_app in Hnd as (Hb & Hba & Hka).
    apply NoDup_cons in Hka as [_ Ha].
    apply NoDup_app. split_and!; [exact Hb | | exact Ha].
    intros k Hk Hin. apply (Hba k Hk). right. exact Hin.
Qed.

Lemma mutators_keep_keys_unique_witness :
  NoDup (entryKeys (snd (addEntry sampleDoc (lit "C") (lit "3")))).
Proof.
  apply (mutators_keep_keys_unique sampleDoc).
  - apply (bool_decide_unpack _). vm_compute. exact I.
  - apply (mutated_add _ _ (lit "C") (lit "3")). vm_compute. reflexivity.
Defined.

Lemma deleteEntry_unique_gone doc key doc' :
  NoDup (entryKeys doc) ->
  deleteEntry doc key = (Normal tt, doc') ->
  ~ hasEntry key doc'.
Proof.
  intros Hnd Hcall.
  destruct (deleteEntry_cases doc key)
    as [[_ E]|[_ (b & v & e & r & a & Hl & _ & E)]];
    rewrite E in Hcall; [discriminate |].
  apply (f_equal snd) in Hcall. cbn [snd] in Hcall. subst doc'.
  rewrite (entryKeys_lines doc (filepath doc)), Hl, entryKeys_app,
    entryKeys_cons_entry in Hnd.
  apply NoDup_app in Hnd as (_ & Hba & Hka).
  apply NoDup_cons in Hka as [Hk _].
  intros Hhas%entryKeys_hasEntry. rewrite entryKeys_app in Hhas.
  apply in_app_or in Hhas as [Hin|Hin]; apply list_elem_of_In in Hin.
  - apply (Hba key Hin). left.
  - exact (Hk Hin).
Qed.

(** X4: when entry keys are unique, a successful [deleteEntry] leaves no
    entry with the key.  (When the key occurs twice, the second
    occurrence stays.) *)
Theorem deleteEntry_key_gone doc key doc' :
  NoDup (entryKeys doc) ->
  deleteEntry doc key = (Normal tt, doc') ->
  ~ hasEntry key doc'.
Proof. apply deleteEntry_unique_gone. Qed.

Lemma deleteEntry_key_gone_witness :
  ~ hasEntry (lit "A") (snd (deleteEntry sampleDoc (lit "A"))).
Proof.
  apply (deleteEntry_key_gone sampleDoc (lit "A")).
  - apply (bool_decide_unpack _). vm_compute. exact I.
  - vm_compute. reflexivity.
Defined.

(** X5: adding an entry for a key the document does not have and then
    deleting that key gives back the document as it was. *)
Theorem addEntry_then_deleteEntry doc key value :
  ~ hasEntry key doc ->
  deleteEntry (snd (addEntry doc key value)) key = (Normal tt, doc).
Proof.
  intros Hno.
  destruct (addEntry_cases doc key value) as [[Hhas _]|[_ E]];
    [contradiction |].
  rewrite E. cbn [snd].
  set (entry := line_entry key value (startsWith value ENCRYPTED_PREFIX)
                  (key ++ [EQUALS] ++ value)).
  unfold deleteEntry. rewrite findIndex_find. cbn [lines filepath].
  rewrite (find_app_last key (lines doc) entry).
  - destruct (Z.eqb_spec (Z.of_nat (length (lines doc))) (-1)); [lia |].
    rewrite splice1_delete by (rewrite length_app; simpl; lia).
    rewrite take_app_length.
    rewrite drop_ge by (rewrite length_app; simpl; lia).
    rewrite app_nil_r. rewrite mkDoc_eta. reflexivity.
  - destruct (find (isEntryFor key) (lines doc)) as [[i l]|] eqn:Ef;
      [| reflexivity].
    exfalso. apply Hno. apply find_hasEntry. eauto.
  - apply isEntryFor_entry. reflexivity.
Qed.

Lemma addEntry_then_deleteEntry_witness :
  deleteEntry (snd (addEntry sampleDoc (lit "C") (lit "3"))) (lit "C")
  = (Normal tt, sampleDoc).
Proof.
  apply (addEntry_then_deleteEntry sampleDoc (lit "C") (lit "3")).
  intros (i & l & E)%find_hasEntry. vm_compute in E. discriminate.
Defined.

(** X6: of two successive updates of the same key the last one wins: the
    result is the one of the second update alone. *)
Theorem updateEntry_twice doc key value1 value2 doc1 :
  updateEntry doc key value1 = (Normal tt, doc1) ->
  updateEntry doc1 key value2 = updateEntry doc key value2.
Proof.
  intros Hcall.
  destruct (updateEntry_cases doc key value1)
    as [[_ E]|[_ (i & v & e & r & Ef & E)]];
    rewrite E in Hcall; [discriminate |].
  apply (f_equal snd) in Hcall. cbn [snd] in Hcall. subst doc1.
  assert (lines doc !! i = Some (line_entry key v e r)) as Hi.
  { unfold find in Ef. apply list_find_Some in Ef. tauto. }
  unfold updateEntry at 1 2. cbn [lines filepath].
  rewrite (find_insert_same_key key _ _ _ _ _ _ _ _ _ Hi), Ef.
  rewrite Nat.eqb_refl. cbn [assignEntry].
  rewrite list_insert_insert_eq. reflexivity.
Qed.

Lemma updateEntry_twice_witness :
  updateEntry (snd (updateEntry sampleDoc (lit "B") (lit "one")))
    (lit "B") (lit "two")
  = updateEntry sampleDoc (lit "B") (lit "two").
Proof.
  apply (updateEntry_twice sampleDoc (lit "B") (lit "one") (lit "two")).
  vm_compute. reflexivity.
Defined.

(** ** Facts about [trim] *)

Section TrimFacts.

Implicit Types (s t : jsstring) (c : char).

Lemma trimStart_app_clean s c :
  isTrimmable c = false -> trimStart (s ++ [c]) = trimStart s ++ [c].
Proof.
  intros Hc. induction s as [|x s IH]; simpl.
  - rewrite Hc. reflexivity.
  - destruct (isTrimmable x); [exact IH | reflexivity].
Qed.

Lemma trimEnd_cons_clean s c :
  isTrimmable c = false -> trimEnd (c :: s) = c :: trimEnd s.
Proof.
  intros Hc. unfold trimEnd. simpl rev.
  rewrite trimStart_app_clean by assumption.
  rewrite rev_app_distr. reflexivity.
Qed.

Lemma trimEnd_last_clean s c :
  isTrimmable c = false -> trimEnd (s ++ [c]) = s ++ [c].
Proof.
  intros Hc. unfold trimEnd. rewrite rev_app_distr. simpl.
  rewrite Hc. simpl. rewrite rev_involutive. reflexivity.
Qed.

(** What [trimStart] returns is empty or starts with a code unit that
    [trim] keeps. *)
Lemma trimStart_head s :
  trimStart s = [] \/
  exists c t, trimStart s = c :: t /\ isTrimmable c = false.
Proof.
  induction s as [|x s IH]; simpl; [left; reflexivity |].
  destruct (isTrimmable x) eqn:Hx; [exact IH |].
  right. exists x, s. auto.
Qed.

Lemma trimStart_fixed s c :
  isTrimmable c = false -> trimStart (c :: s) = c :: s.
Proof. intros Hc. simpl. rewrite Hc. reflexivity. Qed.

Lemma trimStart_idem s : trimStart (trimStart s) = trimStart s.
Proof.
  destruct (trimStart_head s) as [->|(c & t & -> & Hc)]; [reflexivity |].
  apply trimStart_fixed. assumption.
Qed.

Lemma trimEnd_idem s : trimEnd (trimEnd s) = trimEnd s.
Proof.
  unfold trimEnd. rewrite rev_involutive, trimStart_idem. reflexivity.
Qed.

(** [trim] keeps the first code unit that [trimStart] leaves. *)
Lemma trim_head s :
  trim s = [] /\ trimStart s = [] \/
  exists c t, trimStart s = c :: t /\ trim s = c :: trimEnd t /\
              isTrimmable c = false.
Proof.
  unfold trim.
  destruct (trimStart_head s) as [E|(c & t & E & Hc)]; rewrite E.
  - left. split; reflexivity.
  - right. exists c, t. split_and!; auto. apply trimEnd_cons_clean; assumption.
Qed.

Lemma trim_idem s : trim (trim s) = trim s.
Proof.
  destruct (trim_head s) as [[E _]|(c & t & _ & E & Hc)]; rewrite E.
  - reflexivity.
  - unfold trim. rewrite trimStart_fixed by assumption.
    rewrite trimEnd_cons_clean by assumption.
    rewrite trimEnd_idem. reflexivity.
Qed.

Lemma trimStart_sub s x : In x (trimStart s) -> In x s.
Proof.
  induction s as [|y s IH]; simpl; [tauto |].
  destruct (isTrimmable y); [intros H; right; auto | simpl; tauto].
Qed.

Lemma trim_sub s x : In x (trim s) -> In x s.
Proof.
  unfold trim, trimEnd. intros H%in_rev%trimStart_sub%in_rev.
  apply trimStart_sub. assumption.
Qed.

(** A text in which [trim] keeps every code unit is left as it is. *)
Lemma trim_all_clean s :
  Forall (fun c => isTrimmable c = false) s -> trim s = s.
Proof.
  intros H. unfold trim.
  assert (trimEnd s = s) as Hend.
  { induction H as [|c s Hc _ IH]; [reflexivity |].
    rewrite trimEnd_cons_clean by assumption. rewrite IH. reflexivity. }
  destruct H as [|c s Hc _]; [reflexivity |].
  rewrite trimStart_fixed by assumption. exact Hend.
Qed.

(** A text that starts with a kept code unit, followed by anything and a
    last kept code unit, is left as it is. *)
Lemma trim_wrapped s c d :
  isTrimmable c = false -> isTrimmable d = false ->
  trim (c :: s ++ [d]) = c :: s ++ [d].
Proof.
  intros Hc Hd. unfold trim. rewrite trimStart_fixed by assumption.
  change (c :: s ++ [d]) with ((c :: s) ++ [d]).
  apply trimEnd_last_clean. assumption.
Qed.

(** When the text before has something [trim] keeps, trimming the start
    of a longer text stops there. *)
Lemma trimStart_app s t :
  trimStart s <> [] -> trimStart (s ++ t) = trimStart s ++ t.
Proof.
  induction s as [|x s IH]; simpl; [congruence |].
  destruct (isTrimmable x); [exact IH | reflexivity].
Qed.

Lemma trimStart_app_all s c t :
  trimStart s = [] -> isTrimmable c = false ->
  trimStart (s ++ c :: t) = c :: t.
Proof.
  induction s as [|x s IH]; simpl.
  - intros _ Hc. rewrite Hc. reflexivity.
  - destruct (isTrimmable x); [exact IH | discriminate].
Qed.

End TrimFacts.

(** ** Reading back a written line *)

Section Reload.

Implicit Types (key value rest s : jsstring) (c : char).

Lemma storableKey_spec key :
  storableKey key = true <->
  trim key = key /\ ~ In EQUALS key /\ startsWith key [HASH] = false.
Proof.
  unfold storableKey.
  rewrite !andb_true_iff, !negb_true_iff, eqb_str_eq, includes_false.
  tauto.
Qed.

Lemma endsWith_last s c : endsWith (s ++ [c]) [c] = true.
Proof.
  unfold endsWith, len. rewrite length_app. simpl length.
  destruct (Z.ltb_spec (Z.of_nat (length s + 1) - Z.of_nat 1) 0); [lia |].
  replace (Z.to_nat (Z.of_nat (length s + 1) - Z.of_nat 1)) with (length s)
    by lia.
  rewrite drop_app_length. apply eqb_str_refl.
Qed.

Lemma replaceAll_absent s c rep : ~ In c s -> replaceAll s c rep = s.
Proof.
  induction s as [|x s IH]; simpl; [reflexivity |].
  intros Hn. destruct (N.eqb_spec x c) as [->|_]; [tauto |].
  simpl. rewrite IH by tauto. reflexivity.
Qed.

Lemma length_replaceAll_quote s :
  In DQUOTE s ->
  length s < length (replaceAll s DQUOTE [BACKSLASH; DQUOTE]).
Proof.
  assert (forall t, length t <= length (replaceAll t DQUOTE [BACKSLASH; DQUOTE]))
    as Hle.
  { induction t as [|x t IH]; simpl; [lia |].
    destruct (x =? DQUOTE)%N; simpl; lia. }
  induction s as [|x s IH]; simpl; [tauto |].
  destruct (N.eqb_spec x DQUOTE) as [->|Hne]; simpl.
  - intros _. specialize (Hle s). lia.
  - intros [?|Hin]; [congruence |]. specialize (IH Hin). lia.
Qed.

(** A line that starts with a storable key and an [=] is read as an entry
    with that key, whatever follows. *)
Lemma parseLine_written key rest :
  storableKey key = true ->
  parseLine (key ++ EQUALS :: rest)
  = line_entry key (parsedValueOf rest)
      (startsWith (parsedValueOf rest) ENCRYPTED_PREFIX)
      (key ++ EQUALS :: rest).
Proof.
  intros (Htrim & Hneq & Hhash)%storableKey_spec.
  assert (exists h t, trim (key ++ EQUALS :: rest) = h :: t /\ h <> HASH)
    as (h & t & Eraw & Hh).
  { destruct (trim_head key) as [[E1 E2]|(c & k' & E2 & E1 & Hc)].
    - rewrite Htrim in E1. subst key. simpl app.
      exists EQUALS, (trimEnd rest). split; [| discriminate].
      unfold trim. rewrite trimStart_fixed by reflexivity.
      apply trimEnd_cons_clean. reflexivity.
    - rewrite Htrim in E1. unfold trim.
      rewrite trimStart_app by (rewrite E2; discriminate).
      rewrite E2. simpl app.
      exists c, (trimEnd (k' ++ EQUALS :: rest)).
      split; [apply trimEnd_cons_clean; assumption |].
      intros ->. rewrite E1 in Hhash. discriminate. }
  unfold parseLine. rewrite Eraw. cbn [eqb_str].
  assert (startsWith (h :: t) [HASH] = false) as ->.
  { simpl. destruct (N.eqb_spec h HASH); [contradiction | reflexivity]. }
  unfold indexOf. rewrite indexOf_from_first by assumption.
  rewrite Z.add_0_l.
  destruct (Z.eqb_spec (len key) (-1)) as [E|_];
    [unfold len in E; lia |].
  cbn [negb]. rewrite substring_prefix, substringFrom_suffix, Htrim.
  reflexivity.
Qed.

Lemma parsedValueOf_written value :
  parsedValueOf
    (if needsQuotes value
     then DQUOTE :: replaceAll value DQUOTE [BACKSLASH; DQUOTE] ++ [DQUOTE]
     else value)
  = reloadedValue value.
Proof.
  unfold reloadedValue, parsedValueOf.
  destruct (needsQuotes value) eqn:Hq.
  - rewrite trim_wrapped by reflexivity.
    set (esc := replaceAll value DQUOTE [BACKSLASH; DQUOTE]).
    assert (startsWith (DQUOTE :: esc ++ [DQUOTE]) [DQUOTE] = true) as ->
      by reflexivity.
    change (DQUOTE :: esc ++ [DQUOTE]) with ((DQUOTE :: esc) ++ [DQUOTE]).
    rewrite endsWith_last. cbn [andb orb].
    rewrite slice_inner. simpl tail. apply removelast_last.
  - apply needsQuotes_false in Hq. unfold mustBeQuoted in Hq.
    destruct (startsWith (trim value) [DQUOTE]) eqn:Hd.
    { apply startsWith_char_in, trim_sub in Hd. tauto. }
    destruct (startsWith (trim value) [SQUOTE]) eqn:Hs.
    { apply startsWith_char_in, trim_sub in Hs. tauto. }
    reflexivity.
Qed.

Lemma writeLine_entry_shape key value enc raw :
  writeLine (line_entry key value enc raw)
  = key ++ EQUALS ::
      (if needsQuotes value
       then DQUOTE :: replaceAll value DQUOTE [BACKSLASH; DQUOTE] ++ [DQUOTE]
       else value).
Proof. simpl. destruct (needsQuotes value); reflexivity. Qed.

End Reload.

Lemma written_entry_reloaded key value enc raw :
  storableKey key = true ->
  parseLine (writeLine (line_entry key value enc raw))
  = line_entry key (reloadedValue value)
      (startsWith (reloadedValue value) ENCRYPTED_PREFIX)
      (writeLine (line_entry key value enc raw)).
Proof.
  intros Hk. rewrite writeLine_entry_shape.
  rewrite (parseLine_written key _ Hk), parsedValueOf_written. reflexivity.
Qed.

Lemma written_entry_unchanged key value enc raw :
  storableKey key = true ->
  ~ In DQUOTE value ->
  needsQuotes value = true \/ trim value = value ->
  parseLine (writeLine (line_entry key value enc raw))
  = line_entry key value (startsWith value ENCRYPTED_PREFIX)
      (writeLine (line_entry key value enc raw)).
Proof.
  intros Hk Hd Hv. rewrite (written_entry_reloaded _ _ _ _ Hk).
  assert (reloadedValue value = value) as ->; [| reflexivity].
  unfold reloadedValue. destruct (needsQuotes value) eqn:Hq.
  - apply replaceAll_absent. assumption.
  - destruct Hv; [discriminate | assumption].
Qed.







(** ** Keys *)

Section KeyFacts.

Implicit Types (key raw s : jsstring) (c : char).

Lemma isKeyChar_plain c :
  isKeyChar c = true ->
  isTrimmable c = false /\ c <> EQUALS /\ c <> HASH /\ c <> LF /\
  c <> DQUOTE /\ c <> SQUOTE /\ c <> SPACE.
Proof.
  unfold isKeyChar, isKeyStart, isTrimmable,
    EQUALS, HASH, LF, DQUOTE, SQUOTE, SPACE.
  rewrite !orb_true_iff, !andb_true_iff, !N.leb_le, !N.eqb_eq.
  intros H. split_and!; try lia.
  apply not_true_iff_false.
  rewrite !orb_true_iff, !andb_true_iff, !N.leb_le, !N.eqb_eq. lia.
Qed.

Lemma isValidKey_chars key :
  isValidKey key = true ->
  key <> [] /\ Forall (fun c => isKeyChar c = true) key.
Proof.
  destruct key as [|c rest]; simpl; [discriminate |].
  rewrite andb_true_iff, forallb_forall. intros [Hc Hrest].
  split; [discriminate |]. constructor.
  - unfold isKeyChar. rewrite Hc. reflexivity.
  - apply Forall_forall. intros x Hx. apply Hrest.
    apply list_elem_of_In. exact Hx.
Qed.

End KeyFacts.

Lemma valid_key_chars_lemma key :
  isValidKey key = true ->
  key <> [] /\
  Forall (fun c => isTrimmable c = false /\ c <> EQUALS /\ c <> HASH /\
                   c <> LF /\ c <> DQUOTE /\ c <> SQUOTE /\ c <> SPACE) key /\
  storableKey key = true.
Proof.
  intros (Hne & Hall)%isValidKey_chars.
  assert (Forall (fun c => isTrimmable c = false /\ c <> EQUALS /\ c <> HASH /\
                   c <> LF /\ c <> DQUOTE /\ c <> SQUOTE /\ c <> SPACE) key)
    as Hplain.
  { eapply Forall_impl; [exact Hall |]. intros c Hc.
    apply isKeyChar_plain. exact Hc. }
  split_and!; [exact Hne | exact Hplain |].
  apply storableKey_spec. split_and!.
  - apply trim_all_clean. eapply Forall_impl; [exact Hplain |].
    intros c Hc. exact (proj1 Hc).
  - intros Hin. rewrite Forall_forall in Hplain.
    apply list_elem_of_In in Hin. specialize (Hplain _ Hin).
    destruct Hplain as (_ & He & _). contradiction.
  - destruct key as [|c rest]; [reflexivity |].
    inversion Hplain as [|? ? Hc _]; subst. simpl.
    destruct (N.eqb_spec c HASH) as [E|]; [| reflexivity].
    destruct Hc as (_ & _ & Hh & _). contradiction.
Qed.

(** X10: a key that [isValidKey] accepts is not empty and has no code
    unit that [trim] removes, no [=], [#], line feed, space or quote
    character; so it is storable. *)
Theorem valid_key_storable key :
  isValidKey key = true ->
  key <> [] /\
  Forall (fun c => isTrimmable c = false /\ c <> EQUALS /\ c <> HASH /\
                   c <> LF /\ c <> DQUOTE /\ c <> SQUOTE /\ c <> SPACE) key /\
  storableKey key = true.
Proof. apply valid_key_chars_lemma. Qed.

Lemma valid_key_storable_witness :
  lit "API_KEY_2" <> [] /\
  Forall (fun c => isTrimmable c = false /\ c <> EQUALS /\ c <> HASH /\
                   c <> LF /\ c <> DQUOTE /\ c <> SQUOTE /\ c <> SPACE)
    (lit "API_KEY_2") /\
  storableKey (lit "API_KEY_2") = true.
Proof.
  apply (valid_key_storable (lit "API_KEY_2")). vm_compute. reflexivity.
Defined.

Lemma parsed_key_storable_lemma raw key value enc raw' :
  parseLine raw = line_entry key value enc raw' ->
  storableKey key = true.
Proof.
  intros E.
  pose proof (parseLine_classified raw) as Hcl. rewrite E in Hcl.
  simpl in Hcl. inversion Hcl as [| |Hne Hnc _|]; subst.
  apply parseLine_entry in E
    as (left & right & -> & Hn & -> & _ & _ & _).
  apply storableKey_spec. split_and!.
  - apply trim_idem.
  - intros Hin%trim_sub. contradiction.
  - destruct (trim_head left) as [[-> _]|(c & t & Es & -> & Hc)];
      [reflexivity |].
    simpl. destruct (N.eqb_spec c HASH) as [->|]; [| reflexivity].
    exfalso.
    destruct (trim_head (left ++ EQUALS :: right))
      as [[_ E0]|(c' & t' & Es' & Et' & _)].
    + rewrite trimStart_app in E0 by (rewrite Es; discriminate).
      rewrite Es in E0. discriminate.
    + rewrite trimStart_app in Es' by (rewrite Es; discriminate).
      rewrite Es in Es'. injection Es' as <- _.
      exact (Hnc _ Et').
Qed.


(** X11: every key that [parseEnvFile] reads is storable: [trim] leaves
    it as it is, it has no [=] and does not start with [#]. *)
Theorem parsed_key_storable raw key value enc raw' :
  parseLine raw = line_entry key value enc raw' ->
  storableKey key = true.
Proof. apply parsed_key_storable_lemma. Qed.

Lemma parsed_key_storable_witness : storableKey (lit "A") = true.
Proof.
  apply (parsed_key_storable (lit "  A = 1") (lit "A") (lit "1") false
           (lit "  A = 1")).
  vm_compute. reflexivity.
Defined.

(** ** Saving and reading again *)

Section SaveReload.

Implicit Types (s t : jsstring) (c : char) (outs : list jsstring).

Lemma split_app_sep s t c :
  split (s ++ c :: t) c = split s c ++ split t c.
Proof.
  induction s as [|x s IH]; simpl.
  - rewrite N.eqb_refl. reflexivity.
  - destruct (x =? c)%N.
    + rewrite IH. reflexivity.
    + rewrite IH. pose proof (split_not_nil s c) as Hnn.
      destruct (split s c) as [|seg segs]; [congruence | reflexivity].
Qed.

Lemma split_clean s c : ~ In c s -> split s c = [s].
Proof.
  induction s as [|x s IH]; simpl; [reflexivity |].
  intros Hn. destruct (N.eqb_spec x c) as [->|_]; [tauto |].
  rewrite IH by tauto. reflexivity.
Qed.

(** Splitting a joined text gives back the joined texts, when there is
    at least one and none holds the separator. *)
Lemma split_join outs c :
  outs <> [] -> Forall (fun out => ~ In c out) outs ->
  split (join outs [c]) c = outs.
Proof.
  intros Hne Hall. revert Hne.
  induction Hall as [|x outs Hx Hall IH]; intros Hne;
    [exfalso; apply Hne; reflexivity |].
  destruct outs as [|y outs].
  - simpl. apply split_clean. assumption.
  - rewrite join_cons2.
    change (split (x ++ c :: join (y :: outs) [c]) c = x :: y :: outs).
    rewrite split_app_sep.
    rewrite split_clean by assumption. rewrite IH by discriminate.
    reflexivity.
Qed.

Lemma join_snoc outs (x sep : jsstring) :
  outs <> [] -> join (outs ++ [x]) sep = join outs sep ++ sep ++ x.
Proof.
  destruct outs as [|y outs]; [congruence |]. intros _.
  change (join ((y :: outs) ++ [x]) sep)
    with (fold_left (fun r e => r ++ sep ++ e) (outs ++ [x]) y).
  rewrite fold_left_app. reflexivity.
Qed.

Lemma length_split s c :
  length (split s c) = S (count_occ N.eq_dec s c).
Proof.
  induction s as [|x s IH]; simpl; [reflexivity |].
  destruct (N.eqb_spec x c) as [->|Hne].
  - destruct (N.eq_dec c c); [| congruence]. simpl. rewrite IH. reflexivity.
  - destruct (N.eq_dec x c); [congruence |].
    pose proof (split_not_nil s c) as Hnn.
    destruct (split s c) as [|seg segs]; [congruence |].
    simpl in *. exact IH.
Qed.

Lemma includes_false_iff s c : includes s c = false <-> ~ In c s.
Proof. apply includes_false. Qed.

Lemma faithfulLine_written l :
  faithfulLine l ->
  ~ In LF (writeLine l) /\ parseLine (writeLine l) = refreshed l.
Proof.
  destruct l as [r|r|k v e r|r]; simpl faithfulLine;
    try (intros [Hp Hl]; simpl writeLine; simpl raw_of in *;
         split; [apply includes_false; exact Hl | exact Hp]).
  intros (Hk & Hkl & Hv). unfold storableValue in Hv.
  apply andb_true_iff in Hv as [Hv Hq].
  apply andb_true_iff in Hv as [Hd Hl].
  apply negb_true_iff, includes_false in Hd.
  apply negb_true_iff, includes_false in Hl.
  apply includes_false in Hkl.
  split.
  - rewrite writeLine_entry_shape. intros Hin.
    apply in_app_or in Hin as [Hin|[Hin|Hin]];
      [contradiction | discriminate |].
    destruct (needsQuotes v); [| contradiction].
    rewrite replaceAll_absent in Hin by assumption.
    destruct Hin as [Hin|Hin]; [discriminate |].
    apply in_app_or in Hin as [Hin|[Hin|[]]];
      [contradiction | discriminate].
  - unfold refreshed. apply written_entry_unchanged; [assumption.. |].
    apply orb_true_iff in Hq as [Hq|Hq]; [left; assumption |].
    right. apply eqb_str_eq. assumption.
Qed.

Lemma writeLine_refreshed l : writeLine (refreshed l) = writeLine l.
Proof. destruct l; reflexivity. Qed.

End SaveReload.

(** X12: the number of lines of a parsed document is one more than the
    number of line feeds of the text; in particular a parsed document
    always has a line. *)
Theorem parse_line_count path text :
  length (lines (parseContent path text))
  = S (count_occ N.eq_dec text LF).
Proof.
  rewrite lines_parseContent, length_map. apply length_split.
Qed.

Lemma reload_lines path doc :
  lines doc <> [] ->
  Forall (fun l => ~ In LF (writeLine l)) (lines doc) ->
  lines (parseContent path (serialize doc))
  = map (fun l => parseLine (writeLine l)) (lines doc).
Proof.
  intros Hne Hall. rewrite lines_parseContent. unfold serialize.
  rewrite split_join.
  - apply map_map.
  - destruct (lines doc); [congruence | discriminate].
  - apply Forall_forall. intros out Hin.
    apply list_elem_of_In, in_map_iff in Hin as (l & <- & Hl).
    rewrite Forall_forall in Hall. apply Hall.
    apply list_elem_of_In. exact Hl.
Qed.

(** X13: saving a document and reading the saved text gives, line for
    line, what reading back each written line gives, as long as the
    document has a line and no written line holds a line feed; a
    document without lines is read back as one blank line. *)
Theorem reload_line_by_line path doc :
  (lines doc <> [] ->
   Forall (fun l => ~ In LF (writeLine l)) (lines doc) ->
   lines (parseContent path (serialize doc))
   = map (fun l => parseLine (writeLine l)) (lines doc))
  /\ (lines doc = [] ->
      lines (parseContent path (serialize doc)) = [line_empty []]).
Proof.
  split.
  - apply reload_lines.
  - intros E. rewrite lines_parseContent. unfold serialize. rewrite E.
    reflexivity.
Qed.

Lemma reload_line_by_line_witness :
  lines (parseContent [] (serialize sampleDoc))
  = map (fun l => parseLine (writeLine l)) (lines sampleDoc).
Proof.
  apply (reload_line_by_line [] sampleDoc).
  - vm_compute. discriminate.
  - vm_compute. repeat constructor; intuition discriminate.
Defined.



(** ** The text saved after [addEntry] *)

Lemma lines_parseContent_not_nil path text :
  lines (parseContent path text) <> [].
Proof.
  intros E. pose proof (length_split text LF) as H.
  rewrite <- (length_map parseLine), <- lines_parseContent with (path := path),
    E in H.
  discriminate.
Qed.

Lemma serialize_snoc path a l :
  a <> [] ->
  serialize (mkDoc path (a ++ [l]))
  = serialize (mkDoc path a) ++ LF :: writeLine l.
Proof.
  intros Hne. unfold serialize. cbn [lines]. rewrite map_app. simpl map.
  rewrite join_snoc; [reflexivity |].
  destruct a; [congruence | discriminate].
Qed.

Lemma serialize_after_add doc key value doc' :
  lines doc <> [] ->
  addEntry doc key value = (Normal tt, doc') ->
  serialize doc'
  = serialize doc ++ LF :: writeLine (line_entry key value false []).
Proof.
  intros Hne Hcall.
  destruct (addEntry_cases doc key value) as [[_ E]|[_ E]];
    rewrite E in Hcall; [discriminate |].
  apply (f_equal snd) in Hcall. cbn [snd] in Hcall. subst doc'.
  rewrite serialize_snoc by assumption. reflexivity.
Qed.

(** X15: after a successful [addEntry] on a document that has a line,
    the saved text is the text that would have been saved before,
    followed by one line feed and the line written for the new entry. *)
Theorem addEntry_saved_text doc key value doc' :
  lines doc <> [] ->
  addEntry doc key value = (Normal tt, doc') ->
  serialize doc'
  = serialize doc ++ LF :: writeLine (line_entry key value false []).
Proof.
  apply serialize_after_add.
Qed.

Lemma addEntry_saved_text_witness :
  serialize (snd (addEntry sampleDoc (lit "C") (lit "3")))
  = serialize sampleDoc
    ++ LF :: writeLine (line_entry (lit "C") (lit "3") false []).
Proof.
  apply (addEntry_saved_text sampleDoc (lit "C") (lit "3")).
  - vm_compute. discriminate.
  - vm_compute. reflexivity.
Defined.

(** X16: when the text read ends with a line feed, the text saved after
    a successful [addEntry] has an empty line before the new entry and
    no line feed after it: it is what would be saved for the text
    without its last line feed, two line feeds, and the new line. *)
Theorem addEntry_after_final_line_feed path text key value doc' :
  addEntry (parseContent path (text ++ [LF])) key value = (Normal tt, doc') ->
  serialize doc'
  = serialize (parseContent path text)
    ++ LF :: LF :: writeLine (line_entry key value false []).
Proof.
  intros Hcall.
  rewrite (serialize_after_add _ _ _ _ (lines_parseContent_not_nil _ _) Hcall).
  assert (serialize (parseContent path (text ++ [LF]))
          = serialize (parseContent path text) ++ [LF]) as ->.
  { rewrite <- (mkDoc_eta (parseContent path (text ++ [LF]))).
    rewrite lines_parseContent, split_app_sep. simpl split.
    rewrite map_app. simpl map.
    change (parseLine []) with (line_empty []).
    rewrite serialize_snoc.
    - simpl writeLine. rewrite <- lines_parseContent with (path := path).
      unfold serialize. cbn [lines]. reflexivity.
    - pose proof (split_not_nil text LF).
      destruct (split text LF); [congruence | discriminate]. }
  rewrite <- app_assoc. reflexivity.
Qed.

Lemma addEntry_after_final_line_feed_witness :
  serialize (snd (addEntry (parseContent [] (lit "A=1" ++ [LF]))
                    (lit "B") (lit "2")))
  = serialize (parseContent [] (lit "A=1"))
    ++ LF :: LF :: writeLine (line_entry (lit "B") (lit "2") false []).
Proof.
  apply (addEntry_after_final_line_feed [] (lit "A=1") (lit "B") (lit "2")).
  vm_compute. reflexivity.
Defined.

(** ** Reading, saving and reading again *)

Section Sound.

Implicit Types (s t raw : jsstring) (c x : char) (l : Line).

Lemma removelast_sub (s : jsstring) x : In x (removelast s) -> In x s.
Proof.
  induction s as [|y s IH]; simpl; [tauto |].
  destruct s as [|z s]; [intros [] |].
  intros [->|Hin]; [left; reflexivity | right; apply IH; exact Hin].
Qed.

Lemma parsedValueOf_sub s x : In x (parsedValueOf s) -> In x s.
Proof.
  unfold parsedValueOf.
  destruct ((startsWith (trim s) [DQUOTE] && endsWith (trim s) [DQUOTE])
            || (startsWith (trim s) [SQUOTE] && endsWith (trim s) [SQUOTE])).
  - rewrite slice_inner. intros Hin%removelast_sub. apply trim_sub.
    destruct (trim s); [destruct Hin | right; exact Hin].
  - apply trim_sub.
Qed.

Lemma replaceAll_sub s c (rep : jsstring) x :
  In x (replaceAll s c rep) -> In x s \/ In x rep.
Proof.
  induction s as [|y s IH]; simpl; [tauto |].
  intros Hin. apply in_app_or in Hin as [Hin|Hin].
  - destruct (y =? c)%N; [right; exact Hin |].
    destruct Hin as [->|[]]. left. left. reflexivity.
  - destruct (IH Hin); [left; right; assumption | right; assumption].
Qed.

(** What the parser makes of a raw line without line feed is sound. *)
Lemma parseLine_sound raw : ~ In LF raw -> soundLine (parseLine raw).
Proof.
  intros Hlf. destruct (parseLine raw) as [r|r|k v e r|r] eqn:E;
    try (pose proof (raw_of_parseLine raw) as Hr; rewrite E in Hr;
         simpl in Hr; subst r; simpl; split; assumption).
  pose proof (parsed_key_storable_lemma raw k v e r E) as Hk.
  apply parseLine_entry in E as (left & right & -> & _ & -> & -> & _ & _).
  simpl. split_and!.
  - exact Hk.
  - intros Hin%trim_sub. apply Hlf. apply in_or_app. left. exact Hin.
  - intros Hin%parsedValueOf_sub. apply Hlf. apply in_or_app.
    right. right. exact Hin.
Qed.

Lemma soundLine_written l :
  soundLine l ->
  ~ In LF (writeLine l) /\ parseLine (writeLine l) = reloadedLine l.
Proof.
  destruct l as [r|r|k v e r|r]; simpl soundLine;
    try (intros [Hp Hl]; simpl writeLine; simpl raw_of in *;
         split; assumption).
  intros (Hk & Hkl & Hvl). split.
  - rewrite writeLine_entry_shape. intros Hin.
    apply in_app_or in Hin as [Hin|[Hin|Hin]];
      [contradiction | discriminate |].
    destruct (needsQuotes v); [| contradiction].
    destruct Hin as [Hin|Hin]; [discriminate |].
    apply in_app_or in Hin as [Hin|[Hin|[]]]; [| discriminate].
    apply replaceAll_sub in Hin as [Hin|[Hin|[Hin|[]]]];
      [contradiction | discriminate | discriminate].
  - unfold reloadedLine. apply written_entry_reloaded. assumption.
Qed.

Lemma parseContent_sound path text :
  Forall soundLine (lines (parseContent path text)).
Proof.
  rewrite lines_parseContent. apply Forall_forall. intros l Hin.
  apply list_elem_of_In, in_map_iff in Hin as (raw & <- & Hraw).
  apply parseLine_sound.
  pose proof (split_segments text LF) as Hseg.
  rewrite Forall_forall in Hseg. apply Hseg. apply list_elem_of_In.
  exact Hraw.
Qed.

Lemma sound_reload path doc :
  lines doc <> [] -> Forall soundLine (lines doc) ->
  lines (parseContent path (serialize doc)) = map reloadedLine (lines doc).
Proof.
  intros Hne Hall. rewrite (reload_lines path doc Hne).
  - apply map_ext_in. intros l Hin. apply soundLine_written.
    rewrite Forall_forall in Hall. apply Hall.
    apply list_elem_of_In. exact Hin.
  - eapply Forall_impl; [exact Hall |]. intros l Hl.
    apply soundLine_written. exact Hl.
Qed.

End Sound.

(** X17: reading a text, saving, and reading the saved text gives the
    lines of the first reading, with one change: each entry has, for
    value, its value with a backslash before every double quote when the
    value is written in quotes, and its trimmed value otherwise (and for
    raw text the written line).  Comments, blank lines, unrecognized
    lines and all keys come back as they were, in the same order. *)
Theorem parse_save_parse path text :
  lines (parseContent path (serialize (parseContent path text)))
  = map reloadedLine (lines (parseContent path text)).
Proof.
  apply sound_reload.
  - apply lines_parseContent_not_nil.
  - apply parseContent_sound.
Qed.

(** ** The key routes *)

Section Routes.

Implicit Types (fs : FileSystem) (path : jsstring).

Lemma writeEnvFile_other fs path doc p :
  p <> path -> writeEnvFile fs path doc p = fs p.
Proof.
  intros Hne. unfold writeEnvFile, writeFileSync.
  destruct (eqb_str p path) eqn:E; [| reflexivity].
  apply eqb_str_eq in E. contradiction.
Qed.

Lemma writeEnvFile_same fs path doc :
  writeEnvFile fs path doc path = Some (serialize doc).
Proof.
  unfold writeEnvFile, writeFileSync. rewrite eqb_str_refl. reflexivity.
Qed.

Lemma parseEnvFile_some fs path content :
  fs path = Some content ->
  parseEnvFile fs path = Normal (parseContent path content).
Proof.
  intros E. unfold parseEnvFile, readFileSync. rewrite E. reflexivity.
Qed.

Lemma parseEnvFile_none fs path :
  fs path = None ->
  parseEnvFile fs path = Throw (SystemError (lit "ENOENT")).
Proof.
  intros E. unfold parseEnvFile, readFileSync. rewrite E. reflexivity.
Qed.

Lemma parseEnvFile_normal fs path doc :
  parseEnvFile fs path = Normal doc ->
  exists content, fs path = Some content /\ doc = parseContent path content.
Proof.
  unfold parseEnvFile, readFileSync.
  destruct (fs path) as [content|]; [| discriminate].
  intros [= <-]. eauto.
Qed.

Ltac frame_failed :=
  cbn; split_and!;
  [ reflexivity
  | intros ? ? [= <- _]; auto
  | intros _; split; [reflexivity | eexists; reflexivity] ].

Ltac frame_written :=
  cbn; split_and!;
  [ intros p Hp; apply writeEnvFile_other; exact Hp
  | intros ? ? [=]
  | contradiction ].

Lemma postKey_frame fs path (key value : BodyValue) :
  let r := fst (postKey fs path key value) in
  let fs' := snd (postKey fs path key value) in
  (forall p, p <> path -> fs' p = fs p) /\
  (forall status e, r = failure status e -> fs' = fs /\ status = 400%Z) /\
  (fs path = None -> fs' = fs /\ exists e, r = failure 400 e).
Proof.
  unfold postKey.
  destruct key as [[|c rest]|b]; [frame_failed | | frame_failed].
  destruct (isValidKey (c :: rest)); cbn [negb]; [| frame_failed].
  destruct (parseEnvFile fs path) as [parsed|e] eqn:Ep; [| frame_failed].
  assert (fs path <> None) as Hsome.
  { intros Hn. rewrite (parseEnvFile_none _ _ Hn) in Ep. discriminate. }
  destruct value as [s|[|]].
  - destruct (addEntry parsed (c :: rest) s) as [[u|e] parsed'];
      [frame_written | frame_failed].
  - destruct (find (isEntryFor (c :: rest)) (lines parsed)); frame_failed.
  - destruct (addEntry parsed (c :: rest) []) as [[u|e] parsed'];
      [frame_written | frame_failed].
Qed.

Lemma putKey_frame fs path (key : jsstring) (value : BodyValue) :
  let r := fst (putKey fs path key value) in
  let fs' := snd (putKey fs path key value) in
  (forall p, p <> path -> fs' p = fs p) /\
  (forall status e, r = failure status e -> fs' = fs /\ status = 400%Z) /\
  (fs path = None -> fs' = fs /\ exists e, r = failure 400 e).
Proof.
  unfold putKey.
  destruct value as [s|b]; [| frame_failed].
  destruct (parseEnvFile fs path) as [parsed|e] eqn:Ep; [| frame_failed].
  assert (fs path <> None) as Hsome.
  { intros Hn. rewrite (parseEnvFile_none _ _ Hn) in Ep. discriminate. }
  destruct (updateEntry parsed key s) as [[u|e] parsed'];
    [frame_written | frame_failed].
Qed.

Lemma deleteKey_frame fs path (key : jsstring) :
  let r := fst (deleteKey fs path key) in
  let fs' := snd (deleteKey fs path key) in
  (forall p, p <> path -> fs' p = fs p) /\
  (forall status e, r = failure status e -> fs' = fs /\ status = 400%Z) /\
  (fs path = None -> fs' = fs /\ exists e, r = failure 400 e).
Proof.
  unfold deleteKey.
  destruct (parseEnvFile fs path) as [parsed|e] eqn:Ep; [| frame_failed].
  assert (fs path <> None) as Hsome.
  { intros Hn. rewrite (parseEnvFile_none _ _ Hn) in Ep. discriminate. }
  destruct (deleteEntry parsed key) as [[u|e] parsed'];
    [frame_written | frame_failed].
Qed.

End Routes.



(** ** Requests in sequence *)

Section Sequence.

Implicit Types (fs : FileSystem) (path key value s t : jsstring).
Implicit Types (c : char) (a : list Line).

Lemma split_cons_clean x s c :
  x <> c ->
  exists h rest,
    split s c = h :: rest /\ split (x :: s) c = (x :: h) :: rest.
Proof.
  intros Hne. simpl. destruct (N.eqb_spec x c) as [|_]; [contradiction |].
  pose proof (split_not_nil s c).
  destruct (split s c) as [|h rest]; [congruence |]. eauto.
Qed.

Lemma split_prefix_clean s t c :
  ~ In c s ->
  exists h rest, split t c = h :: rest /\ split (s ++ t) c = (s ++ h) :: rest.
Proof.
  induction s as [|x s IH]; intros Hn.
  - pose proof (split_not_nil t c).
    destruct (split t c) as [|h rest] eqn:E; [congruence |].
    exists h, rest. split; [reflexivity | exact E].
  - destruct IH as (h & rest & E1 & E2); [intros H; apply Hn; right; exact H |].
    exists h, rest. split; [exact E1 |].
    destruct (split_cons_clean x (s ++ t) c) as (h' & t' & E3 & E4).
    { intros ->. apply Hn. left. reflexivity. }
    simpl app. rewrite E4. rewrite E2 in E3. injection E3 as <- <-.
    reflexivity.
Qed.

(** After an entry with a storable key was added at the end, the saved
    text is read as a document that has an entry with the key, whatever
    the value. *)
Lemma written_key_found path p a key value enc raw :
  storableKey key = true -> ~ In LF key -> a <> [] ->
  hasEntry key
    (parseContent path
       (serialize (mkDoc p (a ++ [line_entry key value enc raw])))).
Proof.
  intros Hk Hlf Hne. unfold hasEntry.
  rewrite lines_parseContent, serialize_snoc by assumption.
  rewrite split_app_sep, map_app, writeLine_entry_shape.
  set (rest := if needsQuotes value then _ else _).
  destruct (split_prefix_clean key (EQUALS :: rest) LF Hlf)
    as (h & segs & E1 & E2).
  destruct (split_cons_clean EQUALS rest LF ltac:(discriminate))
    as (h' & t' & _ & E3).
  rewrite E3 in E1. injection E1 as <- <-. rewrite E2. simpl map.
  rewrite (parseLine_written key h' Hk).
  eexists _, _, _. apply in_or_app. right. left. reflexivity.
Qed.

Lemma find_map_reloadedLine key a :
  find (isEntryFor key) (map reloadedLine a)
  = match find (isEntryFor key) a with
    | Some (j, l) => Some (j, reloadedLine l)
    | None => None
    end.
Proof.
  unfold find. induction a as [|x a IH]; [reflexivity |].
  simpl map. simpl list_find.
  assert (isEntryFor key (reloadedLine x) = isEntryFor key x) as E
    by (destruct x; reflexivity).
  rewrite E. destruct (decide (isEntryFor key x = true)); [reflexivity |].
  rewrite IH. destruct (list_find _ a) as [[j l]|]; reflexivity.
Qed.

Lemma hasEntry_map_reloadedLine key p q a :
  hasEntry key (mkDoc p (map reloadedLine a)) <-> hasEntry key (mkDoc q a).
Proof.
  rewrite !find_hasEntry. cbn [lines]. rewrite find_map_reloadedLine.
  destruct (find (isEntryFor key) a) as [[j l]|]; split;
    intros (i & l' & E); try discriminate; eauto.
Qed.

Lemma hasEntry_lines key doc doc' :
  lines doc = lines doc' -> hasEntry key doc -> hasEntry key doc'.
Proof. unfold hasEntry. intros ->. tauto. Qed.

End Sequence.

Section RouteInversion.

Implicit Types (fs : FileSystem) (path : jsstring).

(** What a successful [POST] did. *)
Lemma postKey_success fs path (key value : BodyValue) k v fs' :
  postKey fs path key value = (success k v, fs') ->
  exists content s,
    key = body_string k /\ isValidKey k = true /\
    fs path = Some content /\ v = Some s /\
    (value = body_string s \/ s = [] /\ value = body_other false) /\
    ~ hasEntry k (parseContent path content) /\
    fs' = writeEnvFile fs path
            (mkDoc path
               (lines (parseContent path content) ++
                [line_entry k s (startsWith s ENCRYPTED_PREFIX)
                   (k ++ [EQUALS] ++ s)])).
Proof.
  unfold postKey.
  destruct key as [[|c rest]|b]; try discriminate.
  destruct (isValidKey (c :: rest)) eqn:Hvalid; [| discriminate].
  cbn [negb].
  destruct (parseEnvFile fs path) as [parsed|e] eqn:Ep; [| discriminate].
  apply parseEnvFile_normal in Ep as (content & Hfs & ->).
  assert (forall s,
    match addEntry (parseContent path content) (c :: rest) s with
    | (Throw e, _) => (failure 400 (messageOf e), fs)
    | (Normal _, parsed') =>
        (success (c :: rest) (Some s), writeEnvFile fs path parsed')
    end = (success k v, fs') ->
    k = c :: rest /\ v = Some s /\
    ~ hasEntry k (parseContent path content) /\
    fs' = writeEnvFile fs path
            (mkDoc path
               (lines (parseContent path content) ++
                [line_entry k s (startsWith s ENCRYPTED_PREFIX)
                   (k ++ [EQUALS] ++ s)]))) as Hadd.
  { intros s.
    destruct (addEntry_cases (parseContent path content) (c :: rest) s)
      as [[_ E]|[Hno E]]; rewrite E; [discriminate |].
    intros [= <- <- <-]. auto. }
  destruct value as [s|[|]].
  - intros (-> & -> & Hno & ->)%Hadd. exists content, s. split_and!; auto.
  - destruct (find _ _); discriminate.
  - intros (-> & -> & Hno & ->)%Hadd. exists content, []. split_and!; auto.
Qed.

(** What a successful [PUT] did. *)
Lemma putKey_success fs path (key : jsstring) (value : BodyValue) k v fs' :
  putKey fs path key value = (success k v, fs') ->
  exists content s parsed',
    value = body_string s /\ k = key /\ v = Some s /\
    fs path = Some content /\
    updateEntry (parseContent path content) key s = (Normal tt, parsed') /\
    fs' = writeEnvFile fs path parsed'.
Proof.
  unfold putKey. destruct value as [s|b]; [| discriminate].
  destruct (parseEnvFile fs path) as [parsed|e] eqn:Ep; [| discriminate].
  apply parseEnvFile_normal in Ep as (content & Hfs & ->).
  destruct (updateEntry (parseContent path content) key s)
    as [[[]|e] parsed'] eqn:Eu; [| discriminate].
  intros [= <- <- <-]. exists content, s, parsed'. split_and!; auto.
Qed.

(** What a successful [DELETE] did. *)
Lemma deleteKey_success fs path (key : jsstring) k v fs' :
  deleteKey fs path key = (success k v, fs') ->
  exists content parsed',
    k = key /\ v = None /\ fs path = Some content /\
    deleteEntry (parseContent path content) key = (Normal tt, parsed') /\
    fs' = writeEnvFile fs path parsed'.
Proof.
  unfold deleteKey.
  destruct (parseEnvFile fs path) as [parsed|e] eqn:Ep; [| discriminate].
  apply parseEnvFile_normal in Ep as (content & Hfs & ->).
  destruct (deleteEntry (parseContent path content) key)
    as [[[]|e] parsed'] eqn:Eu; [| discriminate].
  intros [= <- <- <-]. exists content, parsed'. split_and!; auto.
Qed.

End RouteInversion.

(** X19: after a successful [POST] of a key, every further [POST] of
    that key to the same file, whatever its value, is answered with
    status 400 and the duplicate-key text, and leaves the files as the
    first request left them. *)
Theorem post_again_is_duplicate fs path key value k v fs' value' :
  postKey fs path key value = (success k v, fs') ->
  postKey fs' path key value'
  = (failure 400 (error_text (alreadyExists k)), fs').
Proof.
  intros (content & s & -> & Hvalid & Hfs & -> & _ & Hno & ->)%postKey_success.
  destruct (valid_key_chars_lemma k Hvalid) as (Hne & Hplain & Hk).
  set (doc' := mkDoc path _).
  set (fs' := writeEnvFile fs path doc').
  assert (hasEntry k (parseContent path (serialize doc'))) as Hhas.
  { apply written_key_found.
    - exact Hk.
    - intros Hin. rewrite Forall_forall in Hplain.
      apply list_elem_of_In in Hin. specialize (Hplain _ Hin).
      destruct Hplain as (_ & _ & _ & Hlf & _). contradiction.
    - apply lines_parseContent_not_nil. }
  unfold postKey. destruct k as [|c rest]; [congruence |].
  rewrite Hvalid. cbn [negb].
  rewrite (parseEnvFile_some fs' path (serialize doc'))
    by apply writeEnvFile_same.
  assert (forall s',
    addEntry (parseContent path (serialize doc')) (c :: rest) s'
    = (Throw (DuplicateKeyError (c :: rest)),
       parseContent path (serialize doc'))) as Hadd.
  { intros s'.
    destruct (addEntry_cases (parseContent path (serialize doc'))
                (c :: rest) s') as [[_ E]|[Hno' _]];
      [exact E | contradiction]. }
  destruct value' as [s'|[|]].
  - rewrite Hadd. reflexivity.
  - apply find_hasEntry in Hhas as (i & l & ->). reflexivity.
  - rewrite Hadd. reflexivity.
Qed.

Lemma post_again_is_duplicate_witness :
  postKey
    (snd (postKey sampleFs (lit ".env") (body_string (lit "C"))
            (body_string (lit "3"))))
    (lit ".env") (body_string (lit "C")) (body_other true)
  = (failure 400 (error_text (alreadyExists (lit "C"))),
     snd (postKey sampleFs (lit ".env") (body_string (lit "C"))
            (body_string (lit "3")))).
Proof.
  apply (post_again_is_duplicate sampleFs (lit ".env")
           (body_string (lit "C")) (body_string (lit "3"))
           (lit "C") (Some (lit "3"))).
  vm_compute. reflexivity.
Defined.





(** X22: when the keys of the file are unique, a successful [DELETE] of
    a key is final: a second [DELETE] of that key is answered with
    status 400 and the key-not-found text, and changes no file. *)
Theorem delete_again_not_found fs path key content fs' :
  fs path = Some content ->
  NoDup (entryKeys (parseContent path content)) ->
  deleteKey fs path key = (success key None, fs') ->
  deleteKey fs' path key = (failure 400 (error_text (notFound key)), fs').
Proof.
  intros Hfs Hnd
    (content' & parsed' & _ & _ & Hfs' & Hcall & ->)%deleteKey_success.
  rewrite Hfs in Hfs'. injection Hfs' as <-.
  pose proof (deleteEntry_unique_gone _ _ _ Hnd Hcall) as Hgone.
  assert (Forall soundLine (lines parsed')) as Hsound.
  { destruct (deleteEntry_cases (parseContent path content) key)
      as [[_ E]|[_ (b & v & e & r & a & Hl & _ & E)]];
      rewrite E in Hcall; [discriminate |].
    apply (f_equal snd) in Hcall. cbn [snd] in Hcall. subst parsed'.
    pose proof (parseContent_sound path content) as Hs.
    rewrite Hl in Hs. apply Forall_app in Hs as [Hb Ha].
    cbn [lines]. apply Forall_app. split; [exact Hb |].
    inversion Ha; assumption. }
  assert (~ hasEntry key (parseContent path (serialize parsed'))) as Hno.
  { destruct (lines parsed') as [|l0 ls] eqn:El.
    - unfold hasEntry. rewrite lines_parseContent. unfold serialize.
      rewrite El. simpl. intros (? & ? & ? & [H|[]]). discriminate.
    - intros Hhas. apply Hgone.
      apply (hasEntry_lines key (mkDoc path (lines parsed'))); [reflexivity |].
      apply (hasEntry_map_reloadedLine key path path).
      apply (hasEntry_lines key (parseContent path (serialize parsed')));
        [| exact Hhas].
      cbn [lines]. apply sound_reload; rewrite El;
        [discriminate | exact Hsound]. }
  unfold deleteKey.
  rewrite (parseEnvFile_some _ path (serialize parsed'))
    by apply writeEnvFile_same.
  destruct (deleteEntry_cases (parseContent path (serialize parsed')) key)
    as [[_ E]|[Hhas _]]; [| contradiction].
  rewrite E. reflexivity.
Qed.

Lemma delete_again_not_found_witness :
  deleteKey (snd (deleteKey sampleFs (lit ".env") (lit "A")))
    (lit ".env") (lit "A")
  = (failure 400 (error_text (notFound (lit "A"))),
     snd (deleteKey sampleFs (lit ".env") (lit "A"))).
Proof.
  apply (delete_again_not_found sampleFs (lit ".env") (lit "A") sampleText).
  - reflexivity.
  - apply (bool_decide_unpack _). vm_compute. exact I.
  - vm_compute. reflexivity.
Defined.

(** ** The command line *)

Section CommandLine.

Implicit Types (args : list jsstring) (config : CliConfig) (arg s : jsstring).

Lemma portOption_keeps arg next config :
  portInRange config ->
  portInRange (fst (portOption arg next config)) /\
  cwd (fst (portOption arg next config)) = cwd config.
Proof.
  intros Hc. unfold portOption.
  destruct (eqb_str arg (lit "--port") || eqb_str arg (lit "-p"));
    [| split; [exact Hc | reflexivity]].
  destruct next as [[|c rest]|]; try (split; [exact Hc | reflexivity]).
  destruct (negb (startsWith (c :: rest) (lit "-")));
    [| split; [exact Hc | reflexivity]].
  cbn [fst]. destruct (parseInt10 (c :: rest)) as [n|];
    [| split; [exact Hc | reflexivity]].
  destruct (Z.ltb_spec 0 n); destruct (Z.ltb_spec n 65536); cbn [andb];
    try (split; [exact Hc | reflexivity]).
  split; [right; simpl; lia | reflexivity].
Qed.

Lemma parseArgsFrom_keeps n :
  forall args config c,
    length args <= n -> portInRange config ->
    parseArgsFrom args config = cli_config c ->
    portInRange c /\ cwd c = cwd config.
Proof.
  induction n as [|n IH]; intros args config c Hlen Hc.
  - destruct args; [| simpl in Hlen; lia]. simpl. intros [= <-]. auto.
  - destruct args as [|arg rest]; [simpl; intros [= <-]; auto |].
    cbn [parseArgsFrom].
    destruct (eqb_str arg (lit "--help") || eqb_str arg (lit "-h"));
      [discriminate |].
    destruct (eqb_str arg (lit "--version") || eqb_str arg (lit "-v"));
      [discriminate |].
    destruct (portOption_keeps arg (head rest) config Hc) as [Hp Hw].
    simpl in Hlen.
    destruct rest as [|b rest'].
    + intros H. apply IH in H; [| simpl; lia | exact Hp].
      destruct H as [H1 H2]. split; [exact H1 | congruence].
    + destruct (snd (portOption arg (head (b :: rest')) config));
        intros H; apply IH in H; try exact Hp; try (simpl in *; lia);
        destruct H as [H1 H2]; (split; [exact H1 | congruence]).
Qed.

Lemma parseArgsFrom_last_port n flag s p :
  flag = lit "--port" \/ flag = lit "-p" ->
  s <> [] -> startsWith s (lit "-") = false ->
  parseInt10 s = Some p -> (0 < p < 65536)%Z ->
  forall args config,
    length args <= n ->
    parseArgsFrom (args ++ [flag; s]) config
    = match parseArgsFrom args config with
      | cli_config c => cli_config (mkCli p (cwd c))
      | cli_exit code printed => cli_exit code printed
      end.
Proof.
  intros Hflag Hs Hdash Hint Hrange.
  assert (forall config,
            parseArgsFrom [flag; s] config = cli_config (mkCli p (cwd config)))
    as Hbase.
  { intros config. destruct s as [|c rest]; [congruence |].
    cbn [parseArgsFrom hd_error].
    match goal with
    | |- context [portOption ?a ?b ?c] =>
        assert (portOption a b c = (mkCli p (cwd config), true)) as Hstep
    end.
    { unfold portOption.
      assert (eqb_str flag (lit "--port") || eqb_str flag (lit "-p") = true)
        as -> by (destruct Hflag as [->| ->]; reflexivity).
      rewrite Hdash, Hint. cbn [negb].
      destruct (Z.ltb_spec 0 p); [| lia].
      destruct (Z.ltb_spec p 65536); [| lia]. reflexivity. }
    rewrite Hstep.
    destruct Hflag as [->| ->]; reflexivity. }
  assert (forall arg config,
            portOption arg (Some flag) config = (config, false)) as Hnext.
  { intros arg config. unfold portOption.
    destruct (eqb_str arg (lit "--port") || eqb_str arg (lit "-p"));
      [| reflexivity].
    destruct Hflag as [->| ->]; reflexivity. }
  assert (forall arg config,
            portOption arg None config = (config, false)) as Hnone.
  { intros arg config. unfold portOption.
    destruct (eqb_str arg (lit "--port") || eqb_str arg (lit "-p"));
      reflexivity. }
  induction n as [|n IH]; intros args config Hlen.
  - destruct args; [| simpl in Hlen; lia]. apply Hbase.
  - destruct args as [|arg rest]; [apply Hbase |].
    simpl in Hlen.
    change ((arg :: rest) ++ [flag; s]) with (arg :: (rest ++ [flag; s])).
    cbn [parseArgsFrom].
    destruct (eqb_str arg (lit "--help") || eqb_str arg (lit "-h"));
      [reflexivity |].
    destruct (eqb_str arg (lit "--version") || eqb_str arg (lit "-v"));
      [reflexivity |].
    destruct rest as [|b rest'].
    + cbn [app hd_error]. rewrite Hnext, Hnone. cbn [fst snd].
      cbn [parseArgsFrom]. apply Hbase.
    + change ((b :: rest') ++ [flag; s]) with (b :: (rest' ++ [flag; s])).
      cbn [hd_error].
      destruct (snd (portOption arg (Some b) config)).
      * apply IH. simpl in Hlen. lia.
      * apply (IH (b :: rest')). simpl in *. lia.
Qed.

End CommandLine.

(** X23: whatever the arguments, the configuration that [parseArgs]
    returns has the port 0 (a free port is chosen later) or a port
    between 1 and 65535, and the working directory of the process. *)
Theorem parseArgs_port_in_range args processCwd config :
  parseArgs args processCwd = cli_config config ->
  (port config = 0%Z \/ (0 < port config < 65536)%Z) /\
  cwd config = processCwd.
Proof.
  intros H.
  apply (parseArgsFrom_keeps (length args) args (mkCli 0 processCwd));
    [lia | left; reflexivity | exact H].
Qed.

Lemma parseArgs_port_in_range_witness :
  (port (mkCli 8080 (lit "/srv")) = 0%Z
   \/ (0 < port (mkCli 8080 (lit "/srv")) < 65536)%Z) /\
  cwd (mkCli 8080 (lit "/srv")) = lit "/srv".
Proof.
  apply (parseArgs_port_in_range
           [lit "-p"; lit "99999"; lit "--port"; lit "8080"] (lit "/srv")).
  vm_compute. reflexivity.
Defined.

(** X24: the last port option wins: when the arguments end with
    [--port] (or [-p]) and a text that [parseInt] reads as a number
    between 1 and 65535, and no earlier argument makes the process exit,
    the returned port is that number whatever came before. *)
Theorem parseArgs_last_port args flag s p processCwd :
  flag = lit "--port" \/ flag = lit "-p" ->
  s <> [] -> startsWith s (lit "-") = false ->
  parseInt10 s = Some p -> (0 < p < 65536)%Z ->
  parseArgs (args ++ [flag; s]) processCwd
  = match parseArgs args processCwd with
    | cli_config c => cli_config (mkCli p (cwd c))
    | cli_exit code printed => cli_exit code printed
    end.
Proof.
  intros Hflag Hs Hdash Hint Hrange. unfold parseArgs.
  apply (parseArgsFrom_last_port (length args) flag s p); auto.
Qed.

Lemma parseArgs_last_port_witness :
  parseArgs ([lit "--port"; lit "3000"; lit "-p"] ++ [lit "-p"; lit "8080x"])
    (lit "/srv")
  = match parseArgs [lit "--port"; lit "3000"; lit "-p"] (lit "/srv") with
    | cli_config c => cli_config (mkCli 8080 (cwd c))
    | cli_exit code printed => cli_exit code printed
    end.
Proof.
  apply (parseArgs_last_port [lit "--port"; lit "3000"; lit "-p"]
           (lit "-p") (lit "8080x") 8080 (lit "/srv")).
  - right. reflexivity.
  - discriminate.
  - reflexivity.
  - reflexivity.
  - lia.
Defined.

(** ** The scan of the directory *)

Section Scan.

Implicit Types (file : jsstring) (dirContents : DirContents).
Implicit Types (files : list jsstring).

Lemma isEnvFileName_spec file :
  isEnvFileName file = true <->
  (file = lit ".env" \/ matchesEnvSuffix file = true) /\
  file <> lit ".env.keys".
Proof.
  unfold isEnvFileName.
  rewrite andb_true_iff, negb_true_iff, eqb_str_neq, orb_true_iff.
  assert (existsb (eqb_str file) ENV_FILE_PATTERNS = true ->
          file = lit ".env" \/ matchesEnvSuffix file = true) as Hpat.
  { unfold ENV_FILE_PATTERNS. simpl existsb.
    rewrite !orb_true_iff, !eqb_str_eq.
    intros [->|[->|[->|[->|[->|[->|[=]]]]]]];
      first [left; reflexivity | right; reflexivity]. }
  split.
  - intros [[H|H] Hk]; split; auto.
  - intros [[->|H] Hk]; split; auto.
Qed.

Lemma isEnvFileName_prefix file :
  isEnvFileName file = true -> startsWith file (lit ".env") = true.
Proof.
  intros [[->|H] _]%isEnvFileName_spec; [reflexivity |].
  unfold matchesEnvSuffix in H. apply andb_true_iff in H as [H _].
  apply startsWith_true in H as (rest & ->). reflexivity.
Qed.

Lemma scanLoop_sound dirContents files file :
  In file (scanLoop dirContents files) ->
  In file files \/
  (In (file, Some true) dirContents /\ isEnvFileName file = true).
Proof.
  revert files; induction dirContents as [|[f stat] rest IH]; intros files;
    simpl; [auto |].
  destruct (isEnvFileName f) eqn:Ef.
  - destruct stat as [[|]|].
    + intros [Hin|[Hin He]]%IH; [| right; auto].
      apply in_app_or in Hin as [Hin|[<-|[]]]; [left; exact Hin |].
      right. auto.
    + intros [Hin|[Hin He]]%IH; [left | right]; auto.
    + auto.
  - intros [Hin|[Hin He]]%IH; [left | right]; auto.
Qed.

Lemma scanLoop_keeps dirContents files file :
  In file files -> In file (scanLoop dirContents files).
Proof.
  revert files; induction dirContents as [|[f stat] rest IH]; intros files;
    simpl; [auto |].
  intros Hin. destruct (isEnvFileName f); [| apply IH; exact Hin].
  destruct stat as [[|]|]; [| apply IH; exact Hin | exact Hin].
  apply IH. apply in_or_app. left. exact Hin.
Qed.

Lemma scanLoop_complete dirContents files file :
  Forall (fun entry => snd entry <> None) dirContents ->
  In (file, Some true) dirContents -> isEnvFileName file = true ->
  In file (scanLoop dirContents files).
Proof.
  intros Hall. revert files.
  induction Hall as [|[f stat] rest Hstat _ IH]; intros files; simpl;
    [tauto |].
  intros [[= -> ->]|Hin] He.
  - rewrite He. apply scanLoop_keeps. apply in_or_app. right. left.
    reflexivity.
  - destruct (isEnvFileName f); [| apply IH; assumption].
    destruct stat as [[|]|]; [apply IH; assumption.. |].
    simpl in Hstat. congruence.
Qed.

End Scan.



(** ** The folder lists *)

Section Folders.

Implicit Types (w : World) (config : FolderConfig).
Implicit Types (a pre post : list jsstring) (x y : jsstring).

Lemma includesArray_true a x : includesArray a x = true <-> In x a.
Proof.
  unfold includesArray. rewrite existsb_exists. split.
  - intros (y & Hy & ->%eqb_str_eq). exact Hy.
  - intros H. exists x. split; [exact H | apply eqb_str_refl].
Qed.

Lemma includesArray_false a x : includesArray a x = false <-> ~ In x a.
Proof.
  rewrite <- includesArray_true. destruct (includesArray a x); split;
    congruence.
Qed.

Lemma indexOfArray_from_spec a x k :
  (indexOfArray_from a x k = (-1)%Z /\ ~ In x a) \/
  (exists pre post, a = pre ++ x :: post /\ ~ In x pre /\
     indexOfArray_from a x k = (k + Z.of_nat (length pre))%Z).
Proof.
  revert k; induction a as [|y a IH]; intros k; simpl.
  - left. auto.
  - destruct (eqb_str y x) eqn:E.
    + apply eqb_str_eq in E as ->. right. exists [], a. simpl.
      split_and!; auto. lia.
    + apply eqb_str_neq in E.
      destruct (IH (k + 1)%Z) as [(Ei & Hn)|(pre & post & -> & Hn & Ei)].
      * left. split; [exact Ei |]. intros [?|?]; [congruence | auto].
      * right. exists (y :: pre), post. split_and!; auto.
        -- intros [?|?]; [congruence | auto].
        -- rewrite Ei. simpl length. lia.
Qed.

Lemma spliceOne_middle {A : Type} (l1 l2 : list A) (z : A) :
  spliceOne (l1 ++ z :: l2) (Z.of_nat (length l1)) = l1 ++ l2.
Proof.
  unfold spliceOne, relIndex. rewrite length_app. simpl length.
  destruct (Z.ltb_spec (Z.of_nat (length l1)) 0); [lia |].
  rewrite Z.min_l by lia. rewrite Nat2Z.id.
  rewrite delete_take_drop, take_app_length. f_equal.
  change (z :: l2) with ([z] ++ l2). rewrite app_assoc.
  apply drop_app_length'. rewrite length_app. simpl. lia.
Qed.

Lemma sliceArray_take {A : Type} (l : list A) (m : Z) :
  (0 <= m)%Z -> sliceArray l 0 m = take (Z.to_nat m) l.
Proof.
  intros Hm. unfold sliceArray, relIndex.
  destruct (Z.ltb_spec 0 0); [lia |].
  destruct (Z.ltb_spec m 0); [lia |].
  rewrite (Z.min_l 0) by lia. change (Z.to_nat 0) with 0. rewrite drop_0.
  destruct (Z.le_ge_cases m (Z.of_nat (length l))).
  - rewrite Z.min_l by lia. f_equal. lia.
  - rewrite Z.min_r by lia.
    replace (Z.to_nat (Z.max (Z.of_nat (length l) - 0) 0)) with (length l)
      by lia.
    rewrite firstn_all. symmetry. apply take_ge. lia.
Qed.

Lemma filter_out_absent a x :
  ~ In x a -> List.filter (fun y => negb (eqb_str y x)) a = a.
Proof.
  induction a as [|y l IH]; simpl; [reflexivity |].
  intros Hn. destruct (eqb_str y x) eqn:E.
  - apply eqb_str_eq in E. subst. exfalso. apply Hn. left. reflexivity.
  - simpl. rewrite IH; [reflexivity |]. intros H. apply Hn. right. exact H.
Qed.

Lemma filter_out_middle pre post x :
  ~ In x pre -> ~ In x post ->
  List.filter (fun y => negb (eqb_str y x)) (pre ++ x :: post) = pre ++ post.
Proof.
  intros Hpre Hpost.
  rewrite List.filter_app. simpl. rewrite eqb_str_refl. simpl.
  rewrite !filter_out_absent by assumption. reflexivity.
Qed.

End Folders.

Section FolderLists.

Implicit Types (w : World) (config : FolderConfig).
Implicit Types (a pre post : list jsstring) (x y : jsstring).

Lemma indexOfArray_from_first pre post x k :
  ~ In x pre ->
  indexOfArray_from (pre ++ x :: post) x k
  = (k + Z.of_nat (length pre))%Z.
Proof.
  revert k; induction pre as [|y pre IH]; intros k Hn; simpl.
  - rewrite eqb_str_refl. lia.
  - destruct (eqb_str y x) eqn:E.
    + apply eqb_str_eq in E. subst. exfalso. apply Hn. left. reflexivity.
    + rewrite IH by (intros H; apply Hn; right; exact H). lia.
Qed.

Lemma config_eta config :
  mkConfig (savedFolders config) (recentFolders config) (maxRecent config)
  = config.
Proof. destruct config; reflexivity. Qed.

Lemma filter_sub {A : Type} (f : A -> bool) (l : list A) z :
  In z (List.filter f l) -> In z l /\ f z = true.
Proof. apply filter_In. Qed.

Lemma take_sub {A : Type} (l : list A) n z : In z (take n l) -> In z l.
Proof.
  intros H. rewrite <- (take_drop n l). apply in_or_app. left. exact H.
Qed.

End FolderLists.

(** X26: after [addSavedFolder] succeeded the resolved path is in the
    saved list; the folders saved before are still there, in their
    order, at most followed by the new one; a list without duplicates
    stays without duplicates; the recent list is untouched; and saving
    the same folder again changes nothing. *)
Theorem addSavedFolder_saves w config folderPath config' :
  addSavedFolder w config folderPath = (Normal true, config') ->
  In (resolve w folderPath) (savedFolders config') /\
  (savedFolders config' = savedFolders config \/
   savedFolders config' = savedFolders config ++ [resolve w folderPath]) /\
  (NoDup (savedFolders config) -> NoDup (savedFolders config')) /\
  recentFolders config' = recentFolders config /\
  addSavedFolder w config' folderPath = (Normal true, config').
Proof.
  unfold addSavedFolder.
  destruct (negb (existsSync w (resolve w folderPath))
            || negb (isDirectory w (resolve w folderPath))) eqn:Hdir;
    [discriminate |].
  destruct (includesArray (savedFolders config) (resolve w folderPath))
    eqn:Hin; cbn [negb]; intros [= <-].
  - rewrite Hin. cbn [negb].
    apply includesArray_true in Hin. split_and!; auto.
  - cbn [savedFolders recentFolders maxRecent].
    assert (includesArray (savedFolders config ++ [resolve w folderPath])
              (resolve w folderPath) = true) as Hin'.
    { apply includesArray_true. apply in_or_app. right. left. reflexivity. }
    rewrite Hin'. cbn [negb]. apply includesArray_false in Hin.
    split_and!; auto.
    + apply in_or_app. right. left. reflexivity.
    + intros Hnd. apply NoDup_app. split_and!; [exact Hnd | | apply NoDup_singleton].
      intros x Hx Hx'. apply list_elem_of_In in Hx, Hx'.
      destruct Hx' as [<-|[]]. contradiction.
Qed.

Lemma addSavedFolder_saves_witness :
  let w := mkWorld (fun p => p) (fun p => p) (fun _ => true) (fun _ => true) in
  let config := mkConfig [lit "/a"] [] 10 in
  let config' := mkConfig [lit "/a"; lit "/b"] [] 10 in
  In (resolve w (lit "/b")) (savedFolders config') /\
  (savedFolders config' = savedFolders config \/
   savedFolders config' = savedFolders config ++ [resolve w (lit "/b")]) /\
  (NoDup (savedFolders config) -> NoDup (savedFolders config')) /\
  recentFolders config' = recentFolders config /\
  addSavedFolder w config' (lit "/b") = (Normal true, config').
Proof.
  intros w config config'.
  apply (addSavedFolder_saves w config (lit "/b") config').
  reflexivity.
Defined.

(** X27: on a saved list without duplicates, [removeSavedFolder] leaves
    exactly the folders other than the resolved path, in their order;
    the recent list is untouched. *)
Theorem removeSavedFolder_removes w config folderPath :
  NoDup (savedFolders config) ->
  removeSavedFolder w config folderPath
  = (Normal true,
     mkConfig
       (List.filter (fun y => negb (eqb_str y (resolve w folderPath)))
          (savedFolders config))
       (recentFolders config) (maxRecent config)).
Proof.
  intros Hnd. unfold removeSavedFolder, indexOfArray.
  destruct (indexOfArray_from_spec (savedFolders config)
              (resolve w folderPath) 0)
    as [(Ei & Hn)|(pre & post & Ea & Hn & Ei)]; rewrite Ei.
  - cbn. rewrite filter_out_absent by exact Hn. rewrite config_eta.
    reflexivity.
  - destruct (Z.gtb_spec (0 + Z.of_nat (length pre)) (-1)); [| lia].
    rewrite Z.add_0_l. rewrite Ea, spliceOne_middle.
    rewrite filter_out_middle; [reflexivity | exact Hn |].
    rewrite Ea in Hnd. apply NoDup_app in Hnd as (_ & _ & Hnd).
    apply NoDup_cons in Hnd as [Hx _].
    intros Hin. apply Hx. apply list_elem_of_In. exact Hin.
Qed.

Lemma removeSavedFolder_removes_witness :
  let w := mkWorld (fun p => p) (fun p => p) (fun _ => true) (fun _ => true) in
  let config := mkConfig [lit "/a"; lit "/b"; lit "/c"] [] 10 in
  removeSavedFolder w config (lit "/b")
  = (Normal true,
     mkConfig
       (List.filter (fun y => negb (eqb_str y (resolve w (lit "/b"))))
          (savedFolders config))
       (recentFolders config) (maxRecent config)).
Proof.
  intros w config.
  apply (removeSavedFolder_removes w config (lit "/b")).
  apply (bool_decide_unpack _). vm_compute. exact I.
Defined.

(** X28: saving a folder that was not saved and then removing it gives
    back the configuration as it was. *)
Theorem addSavedFolder_then_remove w config folderPath config' :
  ~ In (resolve w folderPath) (savedFolders config) ->
  addSavedFolder w config folderPath = (Normal true, config') ->
  removeSavedFolder w config' folderPath = (Normal true, config).
Proof.
  intros Hn. unfold addSavedFolder.
  destruct (negb (existsSync w (resolve w folderPath))
            || negb (isDirectory w (resolve w folderPath)));
    [discriminate |].
  apply includesArray_false in Hn. rewrite Hn. cbn [negb].
  intros [= <-]. unfold removeSavedFolder, indexOfArray.
  cbn [savedFolders recentFolders maxRecent].
  apply includesArray_false in Hn.
  rewrite indexOfArray_from_first by exact Hn. rewrite Z.add_0_l.
  destruct (Z.gtb_spec (Z.of_nat (length (savedFolders config))) (-1));
    [| lia].
  rewrite spliceOne_middle, app_nil_r, config_eta. reflexivity.
Qed.

Lemma addSavedFolder_then_remove_witness :
  let w := mkWorld (fun p => p) (fun p => p) (fun _ => true) (fun _ => true) in
  removeSavedFolder w (mkConfig [lit "/a"; lit "/b"] [] 10) (lit "/b")
  = (Normal true, mkConfig [lit "/a"] [] 10).
Proof.
  intros w.
  apply (addSavedFolder_then_remove w (mkConfig [lit "/a"] [] 10) (lit "/b")).
  - vm_compute. intuition discriminate.
  - reflexivity.
Defined.

(** X29: [addRecentFolder] of a folder that exists, when at least one
    recent folder is kept, puts that folder first in the recent list;
    after it come folders that were in the list before, none with the
    same path; the list is no longer than [maxRecent]; the saved
    folders are untouched; and [getRecentFolders] then lists the folder
    first. *)
Theorem addRecentFolder_front w now config folderPath :
  existsSync w (resolve w folderPath) = true ->
  (1 <= maxRecent config)%Z ->
  exists rest,
    recentFolders (addRecentFolder w now config folderPath)
    = mkRecent (resolve w folderPath) (basename w (resolve w folderPath)) now
      :: rest /\
    Forall (fun item => recentPath item <> resolve w folderPath) rest /\
    (forall item, In item rest -> In item (recentFolders config)) /\
    (Z.of_nat (length (recentFolders
                         (addRecentFolder w now config folderPath)))
     <= maxRecent config)%Z /\
    savedFolders (addRecentFolder w now config folderPath)
    = savedFolders config /\
    head (getRecentFolders w (addRecentFolder w now config folderPath))
    = Some (mkRecent (resolve w folderPath)
              (basename w (resolve w folderPath)) now).
Proof.
  intros Hex Hmax. unfold addRecentFolder. rewrite Hex. cbn [negb].
  set (abs := resolve w folderPath) in *.
  set (others := List.filter _ (recentFolders config)).
  set (new := mkRecent abs (basename w abs) now).
  cbn [recentFolders savedFolders maxRecent].
  rewrite sliceArray_take by lia.
  assert (Z.to_nat (maxRecent config) = S (Z.to_nat (maxRecent config - 1)))
    as Em by lia.
  rewrite Em. cbn [take firstn].
  exists (take (Z.to_nat (maxRecent config - 1)) others). split_and!.
  - reflexivity.
  - apply Forall_forall. intros item Hin.
    apply list_elem_of_In, take_sub, filter_sub in Hin as [_ Hne].
    apply negb_true_iff, eqb_str_neq in Hne. exact Hne.
  - intros item Hin. apply take_sub, filter_sub in Hin. tauto.
  - cbn [length]. rewrite length_take. lia.
  - reflexivity.
  - unfold getRecentFolders. cbn [recentFolders maxRecent].
    rewrite sliceArray_take by lia. cbn [List.filter recentPath new].
    rewrite Hex. rewrite Em. reflexivity.
Qed.

Lemma addRecentFolder_front_witness :
  let w := mkWorld (fun p => p) (fun p => p) (fun _ => true) (fun _ => true) in
  let config :=
    mkConfig [] [mkRecent (lit "/a") (lit "a") (lit "t0");
                 mkRecent (lit "/b") (lit "b") (lit "t1")] 2 in
  exists rest,
    recentFolders (addRecentFolder w (lit "t2") config (lit "/b"))
    = mkRecent (resolve w (lit "/b")) (basename w (resolve w (lit "/b")))
        (lit "t2") :: rest /\
    Forall (fun item => recentPath item <> resolve w (lit "/b")) rest /\
    (forall item, In item rest -> In item (recentFolders config)) /\
    (Z.of_nat (length (recentFolders
                         (addRecentFolder w (lit "t2") config (lit "/b"))))
     <= maxRecent config)%Z /\
    savedFolders (addRecentFolder w (lit "t2") config (lit "/b"))
    = savedFolders config /\
    head (getRecentFolders w (addRecentFolder w (lit "t2") config (lit "/b")))
    = Some (mkRecent (resolve w (lit "/b"))
              (basename w (resolve w (lit "/b"))) (lit "t2")).
Proof.
  intros w config.
  apply (addRecentFolder_front w (lit "t2") config (lit "/b")).
  - reflexivity.
  - simpl. lia.
Defined.

(** X30: when [maxRecent] is not negative, [getRecentFolders] returns at
    most [maxRecent] folders, all of them from the recent list, in its
    order, and all existing. *)
Theorem getRecentFolders_bounded w config :
  (0 <= maxRecent config)%Z ->
  (Z.of_nat (length (getRecentFolders w config)) <= maxRecent config)%Z /\
  Forall (fun item => existsSync w (recentPath item) = true
                      /\ In item (recentFolders config))
    (getRecentFolders w config) /\
  sublist (getRecentFolders w config) (recentFolders config).
Proof.
  intros Hmax. unfold getRecentFolders. rewrite sliceArray_take by lia.
  split_and!.
  - rewrite length_take. lia.
  - apply Forall_forall. intros item Hin.
    apply list_elem_of_In, take_sub, filter_sub in Hin. tauto.
  - etransitivity; [apply sublist_take |].
    induction (recentFolders config) as [|item l IH]; simpl; [constructor |].
    destruct (existsSync w (recentPath item));
      [apply sublist_skip | apply sublist_cons]; exact IH.
Qed.

Lemma getRecentFolders_bounded_witness :
  let w := mkWorld (fun p => p) (fun p => p) (fun _ => true) (fun _ => true) in
  let config :=
    mkConfig [] [mkRecent (lit "/a") (lit "a") (lit "t0");
                 mkRecent (lit "/b") (lit "b") (lit "t1")] 1 in
  (Z.of_nat (length (getRecentFolders w config)) <= maxRecent config)%Z /\
  Forall (fun item => existsSync w (recentPath item) = true
                      /\ In item (recentFolders config))
    (getRecentFolders w config) /\
  sublist (getRecentFolders w config) (recentFolders config).
Proof.
  intros w config. apply (getRecentFolders_bounded w config). simpl. lia.
Defined.
